(** * minitorch.nn: pooling, max, softmax, dropout and normalisation

  A shallow embedding of [minitorch/nn.py].  The functions of that file
  are thin compositions of tensor primitives ([view], [permute],
  [contiguous], elementwise arithmetic, reductions), so the development
  has three layers:

  - [Py]: how a Python call ends (a value or an exception);
  - [TensorData], [Operators], [FastOps], [TensorMethods], [Autodiff]:
    the tensor core that [nn.py] imports.  Floats are read as real
    numbers, so every statement about values is a statement of exact
    arithmetic;
  - [NN]: the functions of [nn.py], line by line. *)

From Stdlib Require Import List Arith ZArith Lia Bool Reals Lra Psatz.
From Stdlib Require Import Permutation FinFun.
Import ListNotations.

Set Implicit Arguments.

(* ================================================================== *)
(** ** Python results *)

Module Py.

(** The exceptions that the modelled code can raise. *)
Inductive exn : Type :=
| AssertionError
| ZeroDivisionError
| ValueError
| IndexError
| IndexingError
| NotImplementedError.

(** A call either returns a value or raises. *)
Inductive result (A : Type) : Type :=
| Ok (a : A)
| Raise (e : exn).

Arguments Ok {A} a.
Arguments Raise {A} e.

Definition bind {A B : Type} (m : result A) (k : A -> result B) : result B :=
  match m with
  | Ok a => k a
  | Raise e => Raise e
  end.

(** [assert b] *)
Definition py_assert (b : bool) : result unit :=
  if b then Ok tt else Raise AssertionError.

(** [a % b] on non-negative integers; a zero divisor raises. *)
Definition py_mod (a b : nat) : result nat :=
  if b =? 0 then Raise ZeroDivisionError else Ok (a mod b).

(** [e1 or e2] on booleans: [e2] is evaluated only when [e1] is false. *)
Definition py_or (e1 : result bool) (e2 : result bool) : result bool :=
  bind e1 (fun b => if b then Ok true else e2).

(** [e != 0] *)
Definition py_nonzero (e : result nat) : result bool :=
  bind e (fun r => Ok (negb (r =? 0))).

(** Code that also threads an interpreter state of type [S]. *)
Definition stateful (S A : Type) : Type := S -> result A * S.

(** [raise e]: no value, the state as it was. *)
Definition throw {S A : Type} (e : exn) : stateful S A :=
  fun s => (Raise e, s).

(** Running a fallible function over a list, left to right, up to the
    first failure. *)
Fixpoint mapM {A B : Type} (f : A -> result B) (l : list A)
    : result (list B) :=
  match l with
  | [] => Ok []
  | x :: l' =>
      bind (f x) (fun y => bind (mapM f l') (fun ys => Ok (y :: ys)))
  end.

End Py.

Import Py.

Declare Scope py_scope.
Notation "x <- m ;; k" := (bind m (fun x => k))
(at level 61, m at next level, right associativity) : py_scope.
Notation "m ;;; k" := (bind m (fun _ => k))
(at level 61, right associativity) : py_scope.
Open Scope py_scope.

(* ================================================================== *)
(** ** Strided tensors *)

Module TensorData.

(** Modelled from the spec: the [Tensor] entity, which [nn.py] imports
    and the glossary describes as a strided N-dimensional array: flat
    storage, a shape and one stride per axis.  The backend attribute
    only selects an execution strategy and is left out. *)
Record Tensor : Type := Build_Tensor {
  storage : list R;
  shape : list nat;
  strides : list nat
}.

(** Modelled from the spec: the number of elements of a shape. *)
Definition size_of (sh : list nat) : nat := fold_right Nat.mul 1 sh.

(** Modelled from the spec: row-major strides of a shape, the stride of an
    axis being the number of elements of the axes to its right. *)
Fixpoint strides_from_shape (sh : list nat) : list nat :=
  match sh with
  | [] => []
  | _ :: rest => size_of rest :: strides_from_shape rest
  end.

(** Modelled from the spec: storage position of a multi-index. *)
Fixpoint index_to_position (index strd : list nat) : nat :=
  match index, strd with
  | i :: index', s :: strd' => i * s + index_to_position index' strd'
  | _, _ => 0
  end.

(** Modelled from the spec: the multi-index of an ordinal in row-major
    order, computed from the last axis to the first; the first component
    is what is left of the ordinal. *)
Fixpoint to_index_aux (sh : list nat) (ordinal : nat) : nat * list nat :=
  match sh with
  | [] => (ordinal, [])
  | s :: rest =>
      let (cur, index) := to_index_aux rest ordinal in
      (cur / s, cur mod s :: index)
  end.

Definition to_index (ordinal : nat) (sh : list nat) : list nat :=
  snd (to_index_aux sh ordinal).

(** A multi-index that is within a shape. *)
Definition in_bounds (index sh : list nat) : Prop := Forall2 lt index sh.

(** Modelled from the spec: a new tensor over given storage, row-major. *)
Definition make (st : list R) (sh : list nat) : Tensor :=
  {| storage := st; shape := sh; strides := strides_from_shape sh |}.

(** Modelled from the spec: the element at a multi-index. *)
Definition get (t : Tensor) (index : list nat) : R :=
  nth (index_to_position index (strides t)) (storage t) 0%R.

(** Modelled from the spec: the loop shared by the backend kernels, which
    fills a fresh row-major tensor, one ordinal after the other, from the
    multi-index of the ordinal. *)
Definition tabulate (sh : list nat) (F : list nat -> R) : Tensor :=
  make (map (fun o => F (to_index o sh)) (seq 0 (size_of sh))) sh.

(** The elements of a tensor in row-major order of its indices. *)
Definition elements (t : Tensor) : list R :=
  map (fun o => get t (to_index o (shape t))) (seq 0 (size_of (shape t))).

(** Modelled from the spec: [Tensor.contiguous], a row-major copy. *)
Definition contiguous (t : Tensor) : Tensor := tabulate (shape t) (get t).

(** Modelled from the spec: whether the strides are the row-major ones. *)
Definition is_contiguous (t : Tensor) : bool :=
  if list_eq_dec Nat.eq_dec (strides t) (strides_from_shape (shape t))
  then true else false.

(** Modelled from the spec: [Tensor.view], the same storage under another
    shape; the tensor must be contiguous and the sizes must agree. *)
Definition view (t : Tensor) (sh : list nat) : result Tensor :=
  py_assert (is_contiguous t) ;;;
  py_assert (length (storage t) =? size_of sh) ;;;
  Ok (make (storage t) sh).

(** Modelled from the spec: whether [order] lists every axis once. *)
Definition is_permutation (order : list nat) (n : nat) : bool :=
  (length order =? n) &&
  forallb (fun i => existsb (Nat.eqb i) order) (seq 0 n).

(** Modelled from the spec: [Tensor.permute], the same storage with the
    axes (shape and strides) reordered. *)
Definition permute (t : Tensor) (order : list nat) : result Tensor :=
  py_assert (is_permutation order (length (shape t))) ;;;
  Ok {| storage := storage t;
        shape := map (fun i => nth i (shape t) 0) order;
        strides := map (fun i => nth i (strides t) 0) order |}.

(** Modelled from the spec: broadcasting of two axis lengths. *)
Definition broadcast_dim (a b : nat) : result nat :=
  if a =? b then Ok a
  else if a =? 1 then Ok b
  else if b =? 1 then Ok a
  else Raise IndexingError.

Fixpoint broadcast_dims (a b : list nat) : result (list nat) :=
  match a, b with
  | x :: a', y :: b' =>
      c <- broadcast_dim x y ;;
      r <- broadcast_dims a' b' ;;
      Ok (c :: r)
  | _, _ => Ok []
  end.

Definition pad_shape (n : nat) (sh : list nat) : list nat :=
  repeat 1 (n - length sh) ++ sh.

(** Modelled from the spec: the broadcast of two shapes, aligned at the
    last axis, the shorter one extended by axes of length 1. *)
Definition shape_broadcast (a b : list nat) : result (list nat) :=
  let n := Nat.max (length a) (length b) in
  broadcast_dims (pad_shape n a) (pad_shape n b).

Fixpoint squeeze_index (index sh : list nat) : list nat :=
  match index, sh with
  | i :: index', s :: sh' =>
      (if 1 <? s then i else 0) :: squeeze_index index' sh'
  | _, _ => []
  end.

(** Modelled from the spec: the index into a tensor of shape [sh] that an
    index of the broadcast shape [big_shape] reads. *)
Definition broadcast_index (big_index big_shape sh : list nat) : list nat :=
  squeeze_index (skipn (length big_shape - length sh) big_index) sh.

(** [l[i] = v] on a list, for [i] in range. *)
Fixpoint set_at (l : list nat) (i v : nat) : list nat :=
  match l, i with
  | [], _ => []
  | _ :: l', 0 => v :: l'
  | x :: l', S i' => x :: set_at l' i' v
  end.

End TensorData.

Import TensorData.

(* ================================================================== *)
(** ** Scalar operators *)

Module Operators.

(** Modelled from the spec: [operators.max]. *)
Definition max (x y : R) : R := if Rgt_dec x y then x else y.

(** Modelled from the spec: [operators.eq], a 0/1 mask value. *)
Definition eq (x y : R) : R := if Req_dec_T x y then 1%R else 0%R.

(** Modelled from the spec: [operators.lt], a 0/1 mask value. *)
Definition lt (x y : R) : R := if Rlt_dec x y then 1%R else 0%R.

End Operators.

(* ================================================================== *)
(** ** Backend kernels *)

Module FastOps.

(** Modelled from the spec: the backend map. *)
Definition map (fn : R -> R) (a : Tensor) : Tensor :=
  tabulate (shape a) (fun index => fn (get a index)).

(** Modelled from the spec: the backend zip, with broadcasting. *)
Definition zip (fn : R -> R -> R) (a b : Tensor) : result Tensor :=
  sh <- shape_broadcast (shape a) (shape b) ;;
  Ok (tabulate sh (fun index =>
        fn (get a (broadcast_index index sh (shape a)))
           (get b (broadcast_index index sh (shape b))))).

(** Modelled from the spec: the backend reduce factory.  Given a binary
    operator and a start value it returns a reduction over a chosen axis:
    the axis gets length 1 and every output cell starts at [start] and
    takes in the cells of its slice in order. *)
Definition reduce (fn : R -> R -> R) (start : R)
    (a : Tensor) (dim : nat) : result Tensor :=
  if dim <? length (shape a) then
    let out_shape := set_at (shape a) dim 1 in
    Ok (tabulate out_shape (fun out_index =>
          fold_left
            (fun acc s => fn acc (get a (set_at out_index dim s)))
            (seq 0 (nth dim (shape a) 0)) start))
  else Raise IndexError.

End FastOps.

(* ================================================================== *)
(** ** Tensor methods *)

Module TensorMethods.

(** Modelled from the spec: a Python scalar as a one-element tensor. *)
Definition ensure_tensor (b : R) : Tensor := make [b] [1].

(** Modelled from the spec: elementwise arithmetic and comparisons. *)
Definition add (a b : Tensor) : result Tensor := FastOps.zip Rplus a b.
Definition sub (a b : Tensor) : result Tensor := FastOps.zip Rminus a b.
Definition mul (a b : Tensor) : result Tensor := FastOps.zip Rmult a b.
Definition div (a b : Tensor) : result Tensor := FastOps.zip Rdiv a b.
Definition eq (a b : Tensor) : result Tensor := FastOps.zip Operators.eq a b.
Definition lt (a b : Tensor) : result Tensor := FastOps.zip Operators.lt a b.
Definition exp (a : Tensor) : Tensor := FastOps.map Rtrigo_def.exp a.
Definition log (a : Tensor) : Tensor := FastOps.map ln a.

(** Modelled from the spec: [Tensor.sum(dim)]. *)
Definition sum (a : Tensor) (dim : nat) : result Tensor :=
  FastOps.reduce Rplus 0%R a dim.

(** [shape[dim]] *)
Definition shape_at (a : Tensor) (dim : nat) : result nat :=
  match nth_error (shape a) dim with
  | Some n => Ok n
  | None => Raise IndexError
  end.

(** Modelled from the spec: [Tensor.mean(dim)], the sum along the axis
    divided by the length of the axis. *)
Definition mean (a : Tensor) (dim : nat) : result Tensor :=
  s <- sum a dim ;;
  n <- shape_at a dim ;;
  div s (ensure_tensor (INR n)).

(** Modelled from the spec: [Tensor.var(dim)], the mean along the axis of
    the squared distance to the mean. *)
Definition var (a : Tensor) (dim : nat) : result Tensor :=
  m <- mean a dim ;;
  d <- sub a m ;;
  sq <- mul d d ;;
  mean sq dim.

(** Modelled from the spec: [rand], a tensor of uniform noise.  The
    generator is a parameter: [rng k] is its [k]-th sample. *)
Definition rand (sh : list nat) (rng : nat -> R) : Tensor :=
  make (List.map rng (seq 0 (size_of sh))) sh.

(** Modelled from the spec: the samples of uniform noise lie in the
    half-open unit interval. *)
Definition uniform_noise (rng : nat -> R) : Prop :=
  forall k, (0 <= rng k < 1)%R.

(** Modelled from the spec: [Tensor.__pow__] with an integer exponent. *)
Definition pow (a : Tensor) (n : nat) : Tensor :=
  FastOps.map (fun v => (v ^ n)%R) a.

(** Modelled from the spec: [Tensor.tanh]. *)
Definition tanh (a : Tensor) : Tensor := FastOps.map Rtrigo_def.tanh a.

(** Modelled from the spec: [Tensor.to_numpy], the tensor as a host
    array: its shape and its cells in row-major order. *)
Definition to_numpy (a : Tensor) : list nat * list R :=
  (shape a, elements a).

(** Modelled from the spec: [tensor_from_numpy], a row-major tensor over
    the cells of a host array. *)
Definition tensor_from_numpy (array : list nat * list R) : Tensor :=
  make (snd array) (fst array).

End TensorMethods.

(* ================================================================== *)
(** ** The numpy calls of [one_hot] *)

Module Numpy.

(** [astype(int)] on one cell: the fractional part is cut off. *)
Definition astype_int (v : R) : Z :=
  if Rle_dec 0 v then Int_part v else (- Int_part (- v))%Z.

(** The row that index [k] selects in an array of [n] rows: a negative
    index counts from the end, an index outside [-n, n) raises. *)
Definition row_index (n : nat) (k : Z) : result nat :=
  if ((0 <=? k) && (k <? Z.of_nat n))%Z then Ok (Z.to_nat k)
  else if ((- Z.of_nat n <=? k) && (k <? 0))%Z
       then Ok (Z.to_nat (k + Z.of_nat n))
       else Raise IndexError.

(** Row [r] of [np.eye(n)]. *)
Definition eye_row (n r : nat) : list R :=
  map (fun j => if j =? r then 1%R else 0%R) (seq 0 n).

(** [np.eye(n)[idx]] for an integer array [idx]: one row of the identity
    per cell of [idx], under the shape of [idx] extended by [n]. *)
Definition eye_take (n : nat) (idx : list nat * list Z)
    : result (list nat * list R) :=
  rows <- mapM (row_index n) (snd idx) ;;
  Ok (fst idx ++ [n], flat_map (eye_row n) rows).

End Numpy.

(* ================================================================== *)
(** ** The autodiff protocol *)

Module Autodiff.

(** Modelled from the spec: the [Context] entity, the record in which a
    forward pass stashes the tensors its backward pass needs. *)
Record Context : Type := Build_Context { saved_values : list Tensor }.

Definition empty_context : Context := {| saved_values := [] |}.

(** Modelled from the spec: [ctx.save_for_backward(...)]. *)
Definition save_for_backward (ctx : Context) (values : list Tensor)
    : Context :=
  {| saved_values := values |}.

End Autodiff.

(* ================================================================== *)
(** ** minitorch/nn.py *)

Module NN.

Import TensorMethods Autodiff.

(** [tile(input, kernel)].  Kernel extents are natural numbers. *)
Definition tile (input : Tensor) (kernel : nat * nat)
    : result (Tensor * nat * nat) :=
  match shape input with
  | [batch; channel; height; width] =>
      let (kh, kw) := kernel in
      r <- py_mod height kh ;;
      py_assert (r =? 0) ;;;
      r <- py_mod width kw ;;
      py_assert (r =? 0) ;;;
      let new_width := width / kw in
      let new_height := height / kh in
      x <- view (contiguous input)
             [batch; channel; new_height; kh; new_width; kw] ;;
      x <- permute x [0; 1; 2; 4; 3; 5] ;;
      let x := contiguous x in
      x <- view x [batch; channel; new_height; new_width; kh * kw] ;;
      Ok (x, new_height, new_width)
  | _ => Raise ValueError
  end.

(** [avgpool2d(input, kernel)] *)
Definition avgpool2d (input : Tensor) (kernel : nat * nat)
    : result Tensor :=
  match shape input with
  | [batch; channel; height; width] =>
      t <- tile input kernel ;;
      let '(x, new_height, new_width) := t in
      m <- mean x 4 ;;
      view m [batch; channel; new_height; new_width]
  | _ => Raise ValueError
  end.

(** [max_reduce = FastOps.reduce(operators.max, -1e9)] *)
Definition max_reduce : Tensor -> nat -> result Tensor :=
  FastOps.reduce Operators.max (-1000000000)%R.

(** [argmax(input, dim)] *)
Definition argmax (input : Tensor) (dim : nat) : result Tensor :=
  out <- max_reduce input dim ;;
  eq out input.

(** [Max.forward(ctx, input, dim)].  The axis travels as a one-element
    tensor and is read back with [int(dim.item())]; here it is the
    number itself. *)
Definition Max_forward (ctx : Context) (input : Tensor) (dim : nat)
    : result (Context * Tensor) :=
  out <- max_reduce input dim ;;
  let ctx := save_for_backward ctx [input; out] in
  Ok (ctx, out).

(** [Max.backward(ctx, grad_output)] *)
Definition Max_backward (ctx : Context) (grad_output : Tensor)
    : result (Tensor * R) :=
  match saved_values ctx with
  | [input; out] =>
      m <- eq out input ;;
      g <- mul m grad_output ;;
      Ok (g, 0%R)
  | _ => Raise ValueError
  end.

(** [Max.apply(input, dim)]: a fresh context, then [forward]. *)
Definition Max_apply (input : Tensor) (dim : nat) : result Tensor :=
  r <- Max_forward empty_context input dim ;;
  Ok (snd r).

(** [max(input, dim)] *)
Definition max (input : Tensor) (dim : nat) : result Tensor :=
  Max_apply input dim.

(** [softmax(input, dim)] *)
Definition softmax (input : Tensor) (dim : nat) : result Tensor :=
  mx <- Max_apply input dim ;;
  d <- sub input mx ;;
  let e := exp d in
  partition <- sum e dim ;;
  div e partition.

(** [logsoftmax(input, dim)] *)
Definition logsoftmax (input : Tensor) (dim : nat) : result Tensor :=
  let e := input in
  mx <- Max_apply e dim ;;
  d <- sub e mx ;;
  s <- sum (exp d) dim ;;
  lse <- add (log s) mx ;;
  sub e lse.

(** [maxpool2d(input, kernel)] *)
Definition maxpool2d (input : Tensor) (kernel : nat * nat)
    : result Tensor :=
  match shape input with
  | [batch; channel; height; width] =>
      t <- tile input kernel ;;
      let '(x, new_height, new_width) := t in
      m <- max x 4 ;;
      view m [batch; channel; new_height; new_width]
  | _ => Raise ValueError
  end.

(** [dropout(input, rate, ignore)], with the generator that [rand]
    draws from as an argument. *)
Definition dropout (input : Tensor) (rate : R) (ignore : bool)
    (rng : nat -> R) : result Tensor :=
  if ignore then Ok input
  else
    let r := rand (shape input) rng in
    drop <- lt (ensure_tensor rate) r ;;
    mul input drop.

(** [layer_norm(input, eps)] *)
Definition layer_norm (input : Tensor) (eps : R) : result Tensor :=
  match shape input with
  | [batch; channel; height; width] =>
      m <- mean input 4 ;;
      mean <- view m [batch; channel; height; width] ;;
      v <- var input 4 ;;
      variance <- view v [batch; channel; height; width] ;;
      num <- sub input mean ;;
      den <- add variance (ensure_tensor eps) ;;
      div num den
  | _ => Raise ValueError
  end.

(** [GELU(input)].  A product of a Python or numpy scalar with a tensor
    is the tensor's own product with that scalar. *)
Definition GELU (input : Tensor) : result Tensor :=
  half <- mul input (ensure_tensor (5 / 10)) ;;
  cube <- mul (pow input 3) (ensure_tensor (44715 / 1000000)) ;;
  inner <- add input cube ;;
  scaled <- mul inner (ensure_tensor (sqrt (2 / PI))) ;;
  one_plus <- add (tanh scaled) (ensure_tensor 1) ;;
  mul half one_plus.

(** [one_hot(input, num_classes)] *)
Definition one_hot (input : Tensor) (num_classes : nat) : result Tensor :=
  let (sh, cells) := to_numpy input in
  picked <- Numpy.eye_take num_classes (sh, map Numpy.astype_int cells) ;;
  Ok (tensor_from_numpy picked).

(** [logsumexp(input, dim)]: the body is a single [raise]. *)
Definition logsumexp {S : Type} (input : Tensor) (dim : nat)
    : stateful S Tensor :=
  throw NotImplementedError.

(** [softmax_loss(logits, target)]: a local [result = None], then the
    [raise]; the [return] under it is never reached. *)
Definition softmax_loss {S : Type} (logits target : Tensor)
    : stateful S Tensor :=
  let result : option Tensor := None in
  throw NotImplementedError.

End NN.

(* ================================================================== *)
(** ** Vocabulary of the specification *)

Module Spec.

(** The cells of the slice of [a] along [dim] that passes through
    [index], in order. *)
Definition slice (a : Tensor) (dim : nat) (index : list nat) : list R :=
  map (fun s => get a (set_at index dim s)) (seq 0 (nth dim (shape a) 0)).

(** The cells of block [(i, j)] of image [(b, c)], row by row. *)
Definition block (input : Tensor) (kernel : nat * nat)
    (b c i j : nat) : list R :=
  let (kh, kw) := kernel in
  flat_map
    (fun p => map (fun q => get input [b; c; i * kh + p; j * kw + q])
                  (seq 0 kw))
    (seq 0 kh).

Definition Rsum (l : list R) : R := fold_left Rplus l 0%R.

Definition arithmetic_mean (l : list R) : R :=
  (Rsum l / INR (length l))%R.

(** What [max_reduce] computes for the slice through [index]. *)
Definition reduced_max (a : Tensor) (dim : nat) (index : list nat) : R :=
  fold_left Operators.max (slice a dim index) (-1000000000)%R.

(** The partition sum of the slice through [index]: the sum of
    [exp (x_j - max)] over the cells [x_j] of the slice. *)
Definition partition_sum (a : Tensor) (dim : nat) (index : list nat) : R :=
  Rsum (map (fun v => exp (v - reduced_max a dim index))
            (slice a dim index)).

(** [m] is the greatest element of [l]. *)
Definition is_maximum (m : R) (l : list R) : Prop :=
  In m l /\ forall x, In x l -> (x <= m)%R.

(** The way back from a tiled tensor, as the specification words it: view
    as batch x channel x new_height x new_width x kh x kw, permute the
    axes with (0, 1, 2, 4, 3, 5), view as batch x channel x height x
    width.  As in [tile], the permuted tensor is made contiguous before
    it is viewed. *)
Definition untile (x : Tensor) (batch channel height width : nat)
    (kernel : nat * nat) (new_height new_width : nat) : result Tensor :=
  let (kh, kw) := kernel in
  x <- view x [batch; channel; new_height; new_width; kh; kw] ;;
  x <- permute x [0; 1; 2; 4; 3; 5] ;;
  view (contiguous x) [batch; channel; height; width].

(** [height % kh != 0 or width % kw != 0], as Python evaluates it. *)
Definition not_divisible (height width : nat) (kernel : nat * nat)
    : result bool :=
  let (kh, kw) := kernel in
  py_or (py_nonzero (py_mod height kh)) (py_nonzero (py_mod width kw)).

(** [height % kh == 0 and width % kw == 0], as Python evaluates it. *)
Definition divisible (height width : nat) (kernel : nat * nat) : Prop :=
  let (kh, kw) := kernel in
  py_mod height kh = Ok 0 /\ py_mod width kw = Ok 0.

End Spec.

Import Spec.

(* ================================================================== *)
(** * Properties of the tensor core *)

Section IndexArithmetic.

Lemma in_bounds_length (index sh : list nat) :
  in_bounds index sh -> length index = length sh.
Proof. apply Forall2_length. Qed.

(** A row-major position is within the size of the shape. *)
Lemma position_lt (sh index : list nat) :
  in_bounds index sh ->
  index_to_position index (strides_from_shape sh) < size_of sh.
Proof.
  intros Hb. induction Hb as [|i s index' sh' Hi _ IH]; simpl.
  - lia.
  - nia.
Qed.

(** Decoding an ordinal that is a position plus a multiple of the size
    gives back the index and the multiple. *)
Lemma to_index_aux_position (sh index : list nat) :
  in_bounds index sh ->
  forall k,
    to_index_aux sh
      (k * size_of sh + index_to_position index (strides_from_shape sh))
    = (k, index).
Proof.
  intros Hb. induction Hb as [|i s index' sh' Hi Hb' IH]; intros k; simpl.
  - f_equal. lia.
  - replace (k * (s * size_of sh') +
             (i * size_of sh' +
              index_to_position index' (strides_from_shape sh')))
      with ((k * s + i) * size_of sh' +
            index_to_position index' (strides_from_shape sh')) by ring.
    rewrite IH.
    assert (Hq : (k * s + i) / s = k)
      by (rewrite Nat.div_add_l, Nat.div_small; lia).
    assert (Hr : (k * s + i) mod s = i)
      by (rewrite Nat.add_comm, Nat.Div0.mod_add; apply Nat.mod_small; lia).
    rewrite Hq, Hr. reflexivity.
Qed.

Lemma to_index_position (sh index : list nat) :
  in_bounds index sh ->
  to_index (index_to_position index (strides_from_shape sh)) sh = index.
Proof.
  intros Hb. unfold to_index.
  pose proof (to_index_aux_position Hb 0) as H.
  simpl in H. rewrite H. reflexivity.
Qed.

(** What [to_index_aux] computes, for a shape without empty axes. *)
Lemma to_index_aux_spec (sh : list nat) :
  Forall (fun s => 0 < s) sh ->
  forall o,
    fst (to_index_aux sh o) = o / size_of sh /\
    in_bounds (snd (to_index_aux sh o)) sh /\
    index_to_position (snd (to_index_aux sh o)) (strides_from_shape sh)
    = o mod size_of sh.
Proof.
  induction 1 as [|s sh' Hs Hpos IH]; intros o.
  - cbn [to_index_aux fst snd size_of fold_right index_to_position].
    rewrite Nat.div_1_r, Nat.mod_1_r. repeat split. constructor.
  - destruct (IH o) as (Hq & Hb & Hp).
    cbn [to_index_aux strides_from_shape].
    destruct (to_index_aux sh' o) as [cur index] eqn:E.
    cbn [fst snd index_to_position] in *.
    change (size_of (s :: sh')) with (s * size_of sh').
    subst cur. repeat split.
    + rewrite Nat.Div0.div_div. f_equal. apply Nat.mul_comm.
    + constructor; [apply Nat.mod_upper_bound; lia | exact Hb].
    + rewrite Hp. rewrite (Nat.mul_comm s (size_of sh')).
      rewrite Nat.Div0.mod_mul_r. lia.
Qed.

Lemma size_of_pos (sh : list nat) :
  0 < size_of sh -> Forall (fun s => 0 < s) sh.
Proof.
  induction sh as [|s sh' IH]; simpl; intros H; constructor.
  - destruct s; [simpl in H|]; lia.
  - apply IH. destruct (size_of sh'); lia.
Qed.

(** Every ordinal below the size decodes to an index within the shape,
    whose position is the ordinal. *)
Lemma to_index_in_bounds (sh : list nat) (o : nat) :
  o < size_of sh -> in_bounds (to_index o sh) sh.
Proof.
  intros Ho. apply to_index_aux_spec. apply size_of_pos. lia.
Qed.

Lemma position_to_index (sh : list nat) (o : nat) :
  o < size_of sh ->
  index_to_position (to_index o sh) (strides_from_shape sh) = o.
Proof.
  intros Ho.
  destruct (@to_index_aux_spec sh (size_of_pos sh ltac:(lia)) o)
    as (_ & _ & Hp).
  unfold to_index. rewrite Hp. apply Nat.mod_small. exact Ho.
Qed.

End IndexArithmetic.

Section Tabulate.

Lemma shape_tabulate (sh : list nat) (F : list nat -> R) :
  shape (tabulate sh F) = sh.
Proof. reflexivity. Qed.

Lemma length_storage_tabulate (sh : list nat) (F : list nat -> R) :
  length (storage (tabulate sh F)) = size_of sh.
Proof.
  unfold tabulate, make. cbn [storage].
  rewrite length_map, length_seq. reflexivity.
Qed.

(** The cell that the row-major position of [index] holds. *)
Lemma nth_storage_tabulate (sh : list nat) (F : list nat -> R)
    (index : list nat) :
  in_bounds index sh ->
  nth (index_to_position index (strides_from_shape sh))
      (storage (tabulate sh F)) 0%R = F index.
Proof.
  intros Hb. unfold tabulate, make. cbn [storage].
  pose proof (position_lt Hb) as Hlt.
  set (p := index_to_position index (strides_from_shape sh)) in *.
  rewrite nth_indep with (d' := F (to_index 0 sh))
    by (rewrite length_map, length_seq; exact Hlt).
  rewrite (map_nth (fun o => F (to_index o sh)) (seq 0 (size_of sh)) 0 p).
  rewrite seq_nth by exact Hlt. cbn [Nat.add].
  subst p. rewrite to_index_position by exact Hb. reflexivity.
Qed.

Lemma get_tabulate (sh : list nat) (F : list nat -> R) (index : list nat) :
  in_bounds index sh -> get (tabulate sh F) index = F index.
Proof. intros Hb. unfold get. apply nth_storage_tabulate, Hb. Qed.

(** Two kernels that agree within the shape fill the same tensor. *)
Lemma tabulate_ext (sh : list nat) (F G : list nat -> R) :
  (forall index, in_bounds index sh -> F index = G index) ->
  tabulate sh F = tabulate sh G.
Proof.
  intros H. unfold tabulate. f_equal.
  apply map_ext_in. intros o Ho. apply in_seq in Ho.
  apply H, to_index_in_bounds. lia.
Qed.

Lemma is_contiguous_make (st : list R) (sh : list nat) :
  is_contiguous (make st sh) = true.
Proof.
  unfold is_contiguous, make. cbn [strides shape].
  destruct (list_eq_dec Nat.eq_dec _ _) as [_|n]; [reflexivity|].
  exfalso. apply n. reflexivity.
Qed.

Lemma view_make (st : list R) (sh sh' : list nat) :
  length st = size_of sh' ->
  view (make st sh) sh' = Ok (make st sh').
Proof.
  intros Hlen. unfold view. rewrite is_contiguous_make.
  cbn [py_assert bind make storage].
  apply Nat.eqb_eq in Hlen. rewrite Hlen. reflexivity.
Qed.

Lemma view_tabulate (sh sh' : list nat) (F : list nat -> R) :
  size_of sh = size_of sh' ->
  view (tabulate sh F) sh' = Ok (make (storage (tabulate sh F)) sh').
Proof.
  intros Hs. unfold tabulate at 1. rewrite view_make.
  - reflexivity.
  - rewrite length_map, length_seq. exact Hs.
Qed.

Lemma elements_tabulate (sh : list nat) (F : list nat -> R) :
  elements (tabulate sh F) = storage (tabulate sh F).
Proof.
  unfold elements. rewrite shape_tabulate.
  unfold tabulate at 2. cbn [make storage].
  apply map_ext_in. intros o Ho. apply in_seq in Ho.
  apply get_tabulate, to_index_in_bounds. lia.
Qed.

End Tabulate.

Section SetAt.

Lemma length_set_at (l : list nat) (i v : nat) :
  length (set_at l i v) = length l.
Proof.
  revert i. induction l as [|x l IH]; intros [|i]; simpl; auto.
Qed.

Lemma set_at_set_at (l : list nat) (i v w : nat) :
  set_at (set_at l i v) i w = set_at l i w.
Proof.
  revert i. induction l as [|x l IH]; intros [|i]; simpl; auto.
  f_equal. apply IH.
Qed.

Lemma set_at_nth (l : list nat) (i : nat) :
  set_at l i (nth i l 0) = l.
Proof.
  revert i. induction l as [|x l IH]; intros [|i]; simpl; auto.
  f_equal. apply IH.
Qed.

Lemma nth_set_at (l : list nat) (i v : nat) :
  i < length l -> nth i (set_at l i v) 0 = v.
Proof.
  revert i. induction l as [|x l IH]; intros [|i]; simpl; intros H;
    try lia; auto.
  apply IH. lia.
Qed.

(** An index of the input, with its [dim] component at 0, is an index of
    the reduced shape. *)
Lemma in_bounds_reduced (index sh : list nat) (dim : nat) :
  in_bounds index sh ->
  in_bounds (set_at index dim 0) (set_at sh dim 1).
Proof.
  intros Hb. revert dim.
  induction Hb as [|i s index' sh' Hi Hb' IH]; intros [|dim]; simpl;
    constructor; try lia; try assumption.
  apply IH.
Qed.

(** Going through the slice of a reduced index stays within the input. *)
Lemma in_bounds_slice (index sh : list nat) (dim s : nat) :
  in_bounds index (set_at sh dim 1) ->
  s < nth dim sh 0 ->
  in_bounds (set_at index dim s) sh.
Proof.
  revert index dim. induction sh as [|x sh IH]; intros index dim Hb Hs.
  - destruct dim; simpl in Hs; lia.
  - destruct dim as [|dim]; simpl in Hb, Hs; inversion Hb; subst; simpl.
    + constructor; assumption.
    + constructor; [assumption|]. apply IH; assumption.
Qed.

Lemma in_bounds_nth (index sh : list nat) (dim : nat) :
  in_bounds index sh -> dim < length sh ->
  nth dim index 0 < nth dim sh 0.
Proof.
  intros Hb. revert dim.
  induction Hb as [|i s index' sh' Hi Hb' IH]; intros [|dim] Hd;
    simpl in *; try lia.
  apply IH. lia.
Qed.

End SetAt.

Section Broadcasting.

Lemma pad_shape_same (a b : list nat) :
  length a = length b ->
  pad_shape (Nat.max (length a) (length b)) a = a.
Proof.
  intros H. unfold pad_shape.
  replace (Nat.max (length a) (length b) - length a) with 0 by lia.
  reflexivity.
Qed.

Lemma shape_broadcast_same_length (a b : list nat) :
  length a = length b ->
  shape_broadcast a b = broadcast_dims a b.
Proof.
  intros H. unfold shape_broadcast.
  rewrite (pad_shape_same a b H).
  rewrite Nat.max_comm, (pad_shape_same b a (eq_sym H)). reflexivity.
Qed.

Lemma broadcast_dim_refl (s : nat) : broadcast_dim s s = Ok s.
Proof. unfold broadcast_dim. rewrite Nat.eqb_refl. reflexivity. Qed.

Lemma broadcast_dim_1_l (s : nat) : broadcast_dim 1 s = Ok s.
Proof.
  unfold broadcast_dim. destruct (1 =? s) eqn:E.
  - apply Nat.eqb_eq in E. subst. reflexivity.
  - reflexivity.
Qed.

Lemma broadcast_dim_1_r (s : nat) : broadcast_dim s 1 = Ok s.
Proof.
  unfold broadcast_dim. destruct (s =? 1) eqn:E; reflexivity.
Qed.

Lemma broadcast_dims_refl (sh : list nat) : broadcast_dims sh sh = Ok sh.
Proof.
  induction sh as [|s sh IH]; simpl; [reflexivity|].
  rewrite broadcast_dim_refl. cbn [bind]. rewrite IH. reflexivity.
Qed.

Lemma broadcast_dims_reduced_l (sh : list nat) (dim : nat) :
  broadcast_dims (set_at sh dim 1) sh = Ok sh.
Proof.
  revert dim. induction sh as [|s sh IH]; intros [|dim]; simpl;
    try reflexivity.
  - rewrite broadcast_dim_1_l. cbn [bind].
    rewrite broadcast_dims_refl. reflexivity.
  - rewrite broadcast_dim_refl. cbn [bind]. rewrite IH. reflexivity.
Qed.

Lemma broadcast_dims_reduced_r (sh : list nat) (dim : nat) :
  broadcast_dims sh (set_at sh dim 1) = Ok sh.
Proof.
  revert dim. induction sh as [|s sh IH]; intros [|dim]; simpl;
    try reflexivity.
  - rewrite broadcast_dim_1_r. cbn [bind].
    rewrite broadcast_dims_refl. reflexivity.
  - rewrite broadcast_dim_refl. cbn [bind]. rewrite IH. reflexivity.
Qed.

Lemma broadcast_dims_ones_r (sh : list nat) (n : nat) :
  n = length sh -> broadcast_dims sh (repeat 1 n) = Ok sh.
Proof.
  intros ->. induction sh as [|s sh IH]; simpl; [reflexivity|].
  rewrite broadcast_dim_1_r. cbn [bind]. rewrite IH. reflexivity.
Qed.

Lemma broadcast_dims_ones_l (sh : list nat) (n : nat) :
  n = length sh -> broadcast_dims (repeat 1 n) sh = Ok sh.
Proof.
  intros ->. induction sh as [|s sh IH]; simpl; [reflexivity|].
  rewrite broadcast_dim_1_l. cbn [bind]. rewrite IH. reflexivity.
Qed.

Lemma shape_broadcast_refl (sh : list nat) : shape_broadcast sh sh = Ok sh.
Proof.
  rewrite shape_broadcast_same_length by reflexivity.
  apply broadcast_dims_refl.
Qed.

Lemma shape_broadcast_reduced_l (sh : list nat) (dim : nat) :
  shape_broadcast (set_at sh dim 1) sh = Ok sh.
Proof.
  rewrite shape_broadcast_same_length by apply length_set_at.
  apply broadcast_dims_reduced_l.
Qed.

Lemma shape_broadcast_reduced_r (sh : list nat) (dim : nat) :
  shape_broadcast sh (set_at sh dim 1) = Ok sh.
Proof.
  rewrite shape_broadcast_same_length
    by (symmetry; apply length_set_at).
  apply broadcast_dims_reduced_r.
Qed.

Lemma pad_shape_scalar (n : nat) :
  0 < n -> pad_shape n [1] = repeat 1 n.
Proof.
  intros Hn. unfold pad_shape. cbn [length].
  destruct n as [|n]; [lia|].
  replace (S n - 1) with n by lia.
  change [1] with (repeat 1 1). rewrite <- repeat_app.
  f_equal. lia.
Qed.

(** A scalar broadcasts to every shape with at least one axis. *)
Lemma shape_broadcast_scalar_r (sh : list nat) :
  sh <> [] -> shape_broadcast sh [1] = Ok sh.
Proof.
  intros Hne. unfold shape_broadcast. cbn [length].
  assert (Hl : 0 < length sh) by (destruct sh; [congruence | simpl; lia]).
  replace (Nat.max (length sh) 1) with (length sh) by lia.
  rewrite pad_shape_scalar by exact Hl.
  unfold pad_shape. rewrite Nat.sub_diag. cbn [repeat app].
  apply broadcast_dims_ones_r. reflexivity.
Qed.

Lemma shape_broadcast_scalar_l (sh : list nat) :
  sh <> [] -> shape_broadcast [1] sh = Ok sh.
Proof.
  intros Hne. unfold shape_broadcast. cbn [length].
  assert (Hl : 0 < length sh) by (destruct sh; [congruence | simpl; lia]).
  replace (Nat.max 1 (length sh)) with (length sh) by lia.
  rewrite pad_shape_scalar by exact Hl.
  unfold pad_shape. rewrite Nat.sub_diag. cbn [repeat app].
  apply broadcast_dims_ones_l. reflexivity.
Qed.

Lemma squeeze_index_same (index sh : list nat) :
  in_bounds index sh -> squeeze_index index sh = index.
Proof.
  induction 1 as [|i s index' sh' Hi Hb IH]; simpl; [reflexivity|].
  rewrite IH. f_equal.
  destruct (1 <? s) eqn:E; [reflexivity|].
  apply Nat.ltb_ge in E. lia.
Qed.

Lemma squeeze_index_reduced (index sh : list nat) (dim : nat) :
  in_bounds index sh ->
  squeeze_index index (set_at sh dim 1) = set_at index dim 0.
Proof.
  intros Hb. revert dim.
  induction Hb as [|i s index' sh' Hi Hb IH]; intros [|dim]; simpl;
    try reflexivity.
  - f_equal. apply squeeze_index_same, Hb.
  - rewrite IH. f_equal.
    destruct (1 <? s) eqn:E; [reflexivity|].
    apply Nat.ltb_ge in E. lia.
Qed.

(** An index of the broadcast shape reads a tensor of that very shape at
    the index itself. *)
Lemma broadcast_index_same (index sh : list nat) :
  in_bounds index sh -> broadcast_index index sh sh = index.
Proof.
  intros Hb. unfold broadcast_index. rewrite Nat.sub_diag.
  cbn [skipn]. apply squeeze_index_same, Hb.
Qed.

(** It reads a tensor reduced along [dim] at the start of the slice. *)
Lemma broadcast_index_reduced (index sh : list nat) (dim : nat) :
  in_bounds index sh ->
  broadcast_index index sh (set_at sh dim 1) = set_at index dim 0.
Proof.
  intros Hb. unfold broadcast_index.
  rewrite length_set_at, Nat.sub_diag. cbn [skipn].
  apply squeeze_index_reduced, Hb.
Qed.

Lemma skipn_all_but_one (l : list nat) :
  l <> [] -> exists x, skipn (length l - 1) l = [x].
Proof.
  induction l as [|x l IH]; intros Hne; [congruence|].
  destruct l as [|y l].
  - exists x. reflexivity.
  - destruct IH as [z Hz]; [congruence|]. exists z.
    cbn [length] in *.
    replace (S (S (length l)) - 1) with (S (S (length l) - 1)) by lia.
    cbn [skipn]. exact Hz.
Qed.

(** It reads a scalar at its only cell. *)
Lemma broadcast_index_scalar (index sh : list nat) :
  in_bounds index sh -> sh <> [] ->
  broadcast_index index sh [1] = [0].
Proof.
  intros Hb Hne. unfold broadcast_index. cbn [length].
  rewrite <- (in_bounds_length Hb).
  destruct (@skipn_all_but_one index) as [x Hx].
  - intros ->. inversion Hb. subst. congruence.
  - rewrite Hx. reflexivity.
Qed.

End Broadcasting.

Section Kernels.

Lemma zip_same (fn : R -> R -> R) (a b : Tensor) :
  shape b = shape a ->
  FastOps.zip fn a b =
  Ok (tabulate (shape a) (fun index => fn (get a index) (get b index))).
Proof.
  intros Hs. unfold FastOps.zip. rewrite Hs, shape_broadcast_refl.
  cbn [bind]. f_equal. apply tabulate_ext. intros index Hb.
  rewrite broadcast_index_same by exact Hb. reflexivity.
Qed.

Lemma zip_reduced_r (fn : R -> R -> R) (a b : Tensor) (dim : nat) :
  shape b = set_at (shape a) dim 1 ->
  FastOps.zip fn a b =
  Ok (tabulate (shape a)
        (fun index => fn (get a index) (get b (set_at index dim 0)))).
Proof.
  intros Hs. unfold FastOps.zip. rewrite Hs, shape_broadcast_reduced_r.
  cbn [bind]. f_equal. apply tabulate_ext. intros index Hb.
  rewrite broadcast_index_same by exact Hb.
  rewrite broadcast_index_reduced by exact Hb. reflexivity.
Qed.

Lemma zip_reduced_l (fn : R -> R -> R) (a b : Tensor) (dim : nat) :
  shape a = set_at (shape b) dim 1 ->
  FastOps.zip fn a b =
  Ok (tabulate (shape b)
        (fun index => fn (get a (set_at index dim 0)) (get b index))).
Proof.
  intros Hs. unfold FastOps.zip. rewrite Hs, shape_broadcast_reduced_l.
  cbn [bind]. f_equal. apply tabulate_ext. intros index Hb.
  rewrite broadcast_index_same by exact Hb.
  rewrite broadcast_index_reduced by exact Hb. reflexivity.
Qed.

Lemma get_ensure_tensor (v : R) : get (TensorMethods.ensure_tensor v) [0] = v.
Proof. reflexivity. Qed.

Lemma zip_scalar_r (fn : R -> R -> R) (a : Tensor) (v : R) :
  shape a <> [] ->
  FastOps.zip fn a (TensorMethods.ensure_tensor v) =
  Ok (tabulate (shape a) (fun index => fn (get a index) v)).
Proof.
  intros Hne. unfold FastOps.zip.
  change (shape (TensorMethods.ensure_tensor v)) with [1].
  rewrite shape_broadcast_scalar_r by exact Hne.
  cbn [bind]. f_equal. apply tabulate_ext. intros index Hb.
  rewrite broadcast_index_same by exact Hb.
  rewrite broadcast_index_scalar by assumption. reflexivity.
Qed.

Lemma zip_scalar_l (fn : R -> R -> R) (a : Tensor) (v : R) :
  shape a <> [] ->
  FastOps.zip fn (TensorMethods.ensure_tensor v) a =
  Ok (tabulate (shape a) (fun index => fn v (get a index))).
Proof.
  intros Hne. unfold FastOps.zip.
  change (shape (TensorMethods.ensure_tensor v)) with [1].
  rewrite shape_broadcast_scalar_l by exact Hne.
  cbn [bind]. f_equal. apply tabulate_ext. intros index Hb.
  rewrite broadcast_index_same by exact Hb.
  rewrite broadcast_index_scalar by assumption. reflexivity.
Qed.

Lemma fold_left_map_r (fn : R -> R -> R) (g : nat -> R) (l : list nat) :
  forall start,
    fold_left (fun acc s => fn acc (g s)) l start
    = fold_left fn (map g l) start.
Proof.
  induction l as [|x l IH]; intros start; simpl; [reflexivity|].
  apply IH.
Qed.

(** A reduction along a valid axis returns, and each of its cells is the
    fold of the operator over the slice of the cell. *)
Lemma reduce_ok (fn : R -> R -> R) (start : R) (a : Tensor) (dim : nat) :
  dim < length (shape a) ->
  FastOps.reduce fn start a dim =
  Ok (tabulate (set_at (shape a) dim 1)
        (fun index => fold_left fn (slice a dim index) start)).
Proof.
  intros Hd. unfold FastOps.reduce.
  apply Nat.ltb_lt in Hd. rewrite Hd. f_equal.
  apply tabulate_ext. intros index _. unfold slice.
  apply fold_left_map_r.
Qed.

Lemma reduce_out_of_range (fn : R -> R -> R) (start : R) (a : Tensor)
    (dim : nat) :
  length (shape a) <= dim ->
  FastOps.reduce fn start a dim = Raise IndexError.
Proof.
  intros Hd. unfold FastOps.reduce.
  apply Nat.ltb_ge in Hd. rewrite Hd. reflexivity.
Qed.

Lemma slice_reduced (a : Tensor) (dim : nat) (index : list nat) :
  slice a dim (set_at index dim 0) = slice a dim index.
Proof.
  unfold slice. apply map_ext. intros s. rewrite set_at_set_at. reflexivity.
Qed.

(** The cell of an index is in the slice through it. *)
Lemma In_slice (a : Tensor) (dim : nat) (index : list nat) :
  in_bounds index (shape a) -> dim < length (shape a) ->
  In (get a index) (slice a dim index).
Proof.
  intros Hb Hd. unfold slice. apply in_map_iff.
  exists (nth dim index 0). split.
  - rewrite set_at_nth. reflexivity.
  - apply in_seq. pose proof (in_bounds_nth Hb Hd). lia.
Qed.

End Kernels.


(* ================================================================== *)
(** * Properties of [nn.py] *)

Import NN Autodiff.

Section Tile.

(** Positions and sizes of shapes of known rank are polynomials. *)
Ltac position_arith :=
  cbn [index_to_position strides_from_shape];
  unfold size_of; cbn [fold_right]; ring.

Lemma py_mod_multiple (n k : nat) : k <> 0 -> py_mod (n * k) k = Ok 0.
Proof.
  intros Hk. unfold py_mod.
  apply Nat.eqb_neq in Hk. rewrite Hk.
  rewrite Nat.Div0.mod_mul. reflexivity.
Qed.

Lemma tile_blocks (input : Tensor) (B C nh nw kh kw : nat) :
  shape input = [B; C; nh * kh; nw * kw] ->
  kh <> 0 -> kw <> 0 ->
  exists st,
    tile input (kh, kw) = Ok (make st [B; C; nh; nw; kh * kw], nh, nw) /\
    length st = size_of [B; C; nh; nw; kh * kw] /\
    forall b c i j p q,
      b < B -> c < C -> i < nh -> j < nw -> p < kh -> q < kw ->
      get (make st [B; C; nh; nw; kh * kw]) [b; c; i; j; p * kw + q]
      = get input [b; c; i * kh + p; j * kw + q].
Proof.
  intros Hsh Hkh Hkw. unfold tile. rewrite Hsh.
  rewrite !py_mod_multiple by assumption.
  cbn [bind py_assert Nat.eqb].
  rewrite !Nat.div_mul by assumption.
  unfold contiguous at 1.
  rewrite view_tabulate.
  2:{ rewrite Hsh. position_arith. }
  cbn [bind].
  unfold permute. cbn [make shape strides storage length].
  change (is_permutation [0; 1; 2; 4; 3; 5] 6) with true.
  cbn [py_assert bind map nth strides_from_shape].
  unfold contiguous. cbn [shape].
  rewrite view_tabulate.
  2:{ position_arith. }
  cbn [bind].
  eexists. split; [reflexivity|]. split.
  - rewrite length_storage_tabulate. position_arith.
  - intros b c i j p q Hb Hc Hi Hj Hp Hq.
    unfold get at 1. cbn [make storage strides].
    replace (index_to_position [b; c; i; j; p * kw + q]
               (strides_from_shape [B; C; nh; nw; kh * kw]))
      with (index_to_position [b; c; i; j; p; q]
              (strides_from_shape [B; C; nh; nw; kh; kw]))
      by position_arith.
    rewrite nth_storage_tabulate by (repeat constructor; assumption).
    unfold get at 1. cbn [storage strides].
    replace (index_to_position [b; c; i; j; p; q] _)
      with (index_to_position [b; c; i * kh + p; j * kw + q]
              (strides_from_shape (shape input)))
      by (rewrite Hsh; position_arith).
    apply nth_storage_tabulate.
    rewrite Hsh. repeat constructor; try assumption; nia.
Qed.

Lemma untile_blocks (st : list R) (B C nh nw kh kw : nat) :
  length st = size_of [B; C; nh; nw; kh * kw] ->
  exists st',
    untile (make st [B; C; nh; nw; kh * kw]) B C (nh * kh) (nw * kw)
      (kh, kw) nh nw
    = Ok (make st' [B; C; nh * kh; nw * kw]) /\
    forall b c i j p q,
      b < B -> c < C -> i < nh -> j < nw -> p < kh -> q < kw ->
      get (make st' [B; C; nh * kh; nw * kw])
          [b; c; i * kh + p; j * kw + q]
      = get (make st [B; C; nh; nw; kh * kw]) [b; c; i; j; p * kw + q].
Proof.
  intros Hlen. unfold untile.
  rewrite view_make by (rewrite Hlen; position_arith).
  cbn [bind].
  unfold permute. cbn [make shape strides storage length].
  change (is_permutation [0; 1; 2; 4; 3; 5] 6) with true.
  cbn [py_assert bind map nth strides_from_shape].
  unfold contiguous. cbn [shape].
  rewrite view_tabulate by position_arith.
  eexists. split; [reflexivity|].
  intros b c i j p q Hb Hc Hi Hj Hp Hq.
  unfold get. cbn [make storage strides].
  replace (index_to_position [b; c; i * kh + p; j * kw + q]
             (strides_from_shape [B; C; nh * kh; nw * kw]))
    with (index_to_position [b; c; i; p; j; q]
            (strides_from_shape [B; C; nh; kh; nw; kw]))
    by position_arith.
  rewrite nth_storage_tabulate by (repeat constructor; assumption).
  unfold get. cbn [storage strides].
  f_equal. position_arith.
Qed.

(** A multiple of a positive divisor, written with its quotient. *)
Lemma py_mod_exact (n k : nat) :
  py_mod n k = Ok 0 -> k <> 0 /\ n = n / k * k.
Proof.
  unfold py_mod. destruct (k =? 0) eqn:E; [discriminate|].
  intros H. apply Nat.eqb_neq in E. split; [exact E|].
  injection H as H. apply Nat.Div0.div_exact in H. lia.
Qed.

Lemma seq_offset (a n : nat) :
  seq a n = map (fun q => a + q) (seq 0 n).
Proof.
  revert a. induction n as [|n IH]; intros a; [reflexivity|].
  cbn [seq map]. rewrite Nat.add_0_r. f_equal.
  rewrite <- (seq_shift n 0), map_map, IH.
  apply map_ext. intros q. lia.
Qed.

(** Walking a [kh] x [kw] grid row by row is walking the ordinals below
    [kh * kw], ordinal [k] being cell [(k / kw, k mod kw)]. *)
Lemma grid_seq (A : Type) (g : nat -> nat -> A) (kh kw : nat) :
  flat_map (fun p => map (g p) (seq 0 kw)) (seq 0 kh)
  = map (fun k => g (k / kw) (k mod kw)) (seq 0 (kh * kw)).
Proof.
  induction kh as [|kh IH].
  - reflexivity.
  - rewrite seq_S, flat_map_app, IH. cbn [flat_map Nat.add].
    rewrite app_nil_r.
    replace (S kh * kw) with (kh * kw + kw) by lia.
    rewrite seq_app, map_app. f_equal. cbn [Nat.add].
    rewrite (seq_offset (kh * kw) kw), map_map.
    apply map_ext_in. intros q Hq. apply in_seq in Hq.
    assert (Hd : (kh * kw + q) / kw = kh)
      by (rewrite Nat.div_add_l, Nat.div_small; lia).
    assert (Hm : (kh * kw + q) mod kw = q)
      by (rewrite Nat.add_comm, Nat.Div0.mod_add; apply Nat.mod_small; lia).
    rewrite Hd, Hm. reflexivity.
Qed.

(** The success half of the contract of [tile]. *)
Lemma tile_divisible (input : Tensor)
    (batch channel height width kh kw : nat) :
  shape input = [batch; channel; height; width] ->
  divisible height width (kh, kw) ->
  exists st,
    tile input (kh, kw)
    = Ok (make st [batch; channel; height / kh; width / kw; kh * kw],
          height / kh, width / kw) /\
    length st
    = size_of [batch; channel; height / kh; width / kw; kh * kw] /\
    (forall b c i j p q,
      b < batch -> c < channel -> i < height / kh -> j < width / kw ->
      p < kh -> q < kw ->
      get (make st [batch; channel; height / kh; width / kw; kh * kw])
          [b; c; i; j; p * kw + q]
      = get input [b; c; i * kh + p; j * kw + q]) /\
    (forall b c i j,
      b < batch -> c < channel -> i < height / kh -> j < width / kw ->
      slice (make st [batch; channel; height / kh; width / kw; kh * kw])
            4 [b; c; i; j; 0]
      = block input (kh, kw) b c i j).
Proof.
  intros Hsh [Hh Hw].
  apply py_mod_exact in Hh, Hw.
  destruct Hh as [Hkh Hh], Hw as [Hkw Hw].
  set (nh := height / kh) in *. set (nw := width / kw) in *.
  rewrite Hh, Hw in Hsh.
  destruct (@tile_blocks input _ _ _ _ _ _ Hsh Hkh Hkw) as (st & Htile & Hlen & Hget).
  exists st. repeat split; try assumption.
  intros b c i j Hb Hc Hi Hj.
  unfold slice, block. cbn [make shape nth set_at].
  rewrite (grid_seq (fun p q => get input [b; c; i * kh + p; j * kw + q])).
  apply map_ext_in. intros k Hk. apply in_seq in Hk.
  assert (Hk' : k / kw * kw + k mod kw = k)
    by (pose proof (Nat.div_mod_eq k kw); lia).
  rewrite <- Hget; try assumption.
  - rewrite Hk'. reflexivity.
  - apply Nat.Div0.div_lt_upper_bound. lia.
  - apply Nat.mod_upper_bound. exact Hkw.
Qed.

Lemma in_bounds_4 (index : list nat) (n0 n1 n2 n3 : nat) :
  in_bounds index [n0; n1; n2; n3] ->
  exists i0 i1 i2 i3,
    index = [i0; i1; i2; i3] /\ i0 < n0 /\ i1 < n1 /\ i2 < n2 /\ i3 < n3.
Proof.
  intros H.
  inversion H as [|i0 ? l0 ? H0 T0]; subst.
  inversion T0 as [|i1 ? l1 ? H1 T1]; subst.
  inversion T1 as [|i2 ? l2 ? H2 T2]; subst.
  inversion T2 as [|i3 ? l3 ? H3 T3]; subst.
  inversion T3; subst.
  exists i0, i1, i2, i3. repeat split; assumption.
Qed.

Lemma tile_not_divisible (input : Tensor)
    (batch channel height width kh kw : nat) :
  shape input = [batch; channel; height; width] ->
  not_divisible height width (kh, kw) = Ok true ->
  tile input (kh, kw) = Raise AssertionError.
Proof.
  intros Hsh. unfold tile, not_divisible, py_or, py_nonzero, py_mod.
  rewrite Hsh.
  destruct (kh =? 0); cbn [bind]; [discriminate|].
  destruct (height mod kh =? 0); cbn [bind negb py_assert];
    [|reflexivity].
  destruct (kw =? 0); cbn [bind]; [discriminate|].
  destruct (width mod kw =? 0); cbn [bind negb py_assert];
    [discriminate | reflexivity].
Qed.

Lemma tile_roundtrip_blocks (input : Tensor)
    (batch channel height width kh kw : nat) :
  shape input = [batch; channel; height; width] ->
  divisible height width (kh, kw) ->
  exists x y,
    tile input (kh, kw) = Ok (x, height / kh, width / kw) /\
    untile x batch channel height width (kh, kw)
      (height / kh) (width / kw) = Ok y /\
    shape y = shape input /\
    forall index,
      in_bounds index (shape input) -> get y index = get input index.
Proof.
  intros Hsh Hdiv.
  destruct (tile_divisible input Hsh Hdiv) as (st & Htile & Hlen & Hget & _).
  destruct Hdiv as [Hh Hw].
  apply py_mod_exact in Hh, Hw.
  destruct Hh as [Hkh Hh], Hw as [Hkw Hw].
  set (nh := height / kh) in *. set (nw := width / kw) in *.
  destruct (@untile_blocks st batch channel nh nw kh kw Hlen)
    as (st' & Hun & Hget').
  rewrite <- Hh, <- Hw in Hun, Hget'.
  eexists. eexists. split; [exact Htile|]. split; [exact Hun|].
  split; [rewrite Hsh, Hh, Hw; reflexivity|].
  intros index Hb. rewrite Hsh in Hb.
  apply in_bounds_4 in Hb.
  destruct Hb as (b & c & h & w & -> & Hb & Hc & Hhh & Hww).
  assert (Eh : h / kh * kh + h mod kh = h)
    by (pose proof (Nat.div_mod_eq h kh); lia).
  assert (Ew : w / kw * kw + w mod kw = w)
    by (pose proof (Nat.div_mod_eq w kw); lia).
  assert (Bh : h / kh < nh)
    by (apply Nat.Div0.div_lt_upper_bound; lia).
  assert (Bw : w / kw < nw)
    by (apply Nat.Div0.div_lt_upper_bound; lia).
  pose proof (Nat.mod_upper_bound h kh Hkh) as Bp.
  pose proof (Nat.mod_upper_bound w kw Hkw) as Bq.
  rewrite <- Eh, <- Ew.
  rewrite <- Hget by assumption.
  rewrite <- Hget' by assumption.
  reflexivity.
Qed.
End Tile.

(** C1.  For a 4-dimensional input of shape batch x channel x height x
    width and a kernel (kh, kw) with [height % kh == 0] and
    [width % kw == 0], [tile] returns a contiguous tensor of shape
    batch x channel x height/kh x width/kw x (kh*kw), together with
    height/kh and width/kw; along its last axis lie the cells of block
    (i, j), row by row, cell (p, q) of the block at offset p*kw + q.  When
    [height % kh != 0 or width % kw != 0] holds, [tile] fails with an
    assertion. *)
Theorem tile_contract (input : Tensor)
    (batch channel height width kh kw : nat) :
  shape input = [batch; channel; height; width] ->
  (divisible height width (kh, kw) ->
   exists x,
     tile input (kh, kw) = Ok (x, height / kh, width / kw) /\
     shape x = [batch; channel; height / kh; width / kw; kh * kw] /\
     is_contiguous x = true /\
     (forall b c i j,
        b < batch -> c < channel -> i < height / kh -> j < width / kw ->
        slice x 4 [b; c; i; j; 0] = block input (kh, kw) b c i j) /\
     (forall b c i j p q,
        b < batch -> c < channel -> i < height / kh -> j < width / kw ->
        p < kh -> q < kw ->
        get x [b; c; i; j; p * kw + q]
        = get input [b; c; i * kh + p; j * kw + q])) /\
  (not_divisible height width (kh, kw) = Ok true ->
   tile input (kh, kw) = Raise AssertionError).
Proof.
  intros Hsh. split.
  - intros Hdiv.
    destruct (tile_divisible input Hsh Hdiv)
      as (st & Htile & Hlen & Hget & Hblock).
    eexists. split; [exact Htile|].
    split; [reflexivity|]. split; [apply is_contiguous_make|].
    split; assumption.
  - intros Hnd. eapply tile_not_divisible; eassumption.
Qed.

Lemma tile_contract_witness :
  (exists x,
     tile (make (repeat 1%R 16) [1; 1; 4; 4]) (2, 2) = Ok (x, 2, 2) /\
     shape x = [1; 1; 2; 2; 4] /\
     forall i j, i < 2 -> j < 2 ->
       slice x 4 [0; 0; i; j; 0] = [1; 1; 1; 1]%R) /\
  tile (make (repeat 1%R 16) [1; 1; 4; 4]) (3, 2) = Raise AssertionError.
Proof.
  split.
  - destruct (@tile_contract (make (repeat 1%R 16) [1; 1; 4; 4])
                1 1 4 4 2 2 eq_refl) as [Hok _].
    destruct Hok as (x & Ht & Hs & _ & Hbl & _).
    { split; reflexivity. }
    exists x. split; [exact Ht|]. split; [exact Hs|].
    intros i j Hi Hj.
    rewrite Hbl; [| lia | lia | exact Hi | exact Hj].
    destruct i as [|[|i]], j as [|[|j]]; try lia; reflexivity.
  - apply (@tile_contract (make (repeat 1%R 16) [1; 1; 4; 4])
             1 1 4 4 3 2 eq_refl).
    reflexivity.
Defined.

(** C2.  For a 4-dimensional input and a kernel that divides its height
    and width, [tile] followed by the inverse of its reshape / permute /
    reshape sequence ([untile]) gives a tensor of the shape of the input
    that equals the input at every position. *)
Theorem tile_untile_roundtrip (input : Tensor)
    (batch channel height width kh kw : nat) :
  shape input = [batch; channel; height; width] ->
  divisible height width (kh, kw) ->
  exists x new_height new_width y,
    tile input (kh, kw) = Ok (x, new_height, new_width) /\
    untile x batch channel height width (kh, kw) new_height new_width
    = Ok y /\
    shape y = shape input /\
    forall index,
      in_bounds index (shape input) -> get y index = get input index.
Proof.
  intros Hsh Hdiv.
  destruct (tile_roundtrip_blocks input Hsh Hdiv) as (x & y & H).
  exists x, (height / kh), (width / kw), y. exact H.
Qed.

Lemma tile_untile_roundtrip_witness :
  exists x new_height new_width y,
    tile (make [1; 2; 3; 4]%R [1; 1; 2; 2]) (1, 2)
    = Ok (x, new_height, new_width) /\
    untile x 1 1 2 2 (1, 2) new_height new_width = Ok y /\
    shape y = [1; 1; 2; 2] /\
    forall index,
      in_bounds index [1; 1; 2; 2] ->
      get y index = get (make [1; 2; 3; 4]%R [1; 1; 2; 2]) index.
Proof.
  apply (@tile_untile_roundtrip (make [1; 2; 3; 4]%R [1; 1; 2; 2])
           1 1 2 2 1 2 eq_refl).
  split; reflexivity.
Defined.

Section MaxReduce.

Open Scope R_scope.

Lemma slice_set_at (a : Tensor) (dim : nat) (index : list nat) (s : nat) :
  slice a dim (set_at index dim s) = slice a dim index.
Proof.
  unfold slice. apply map_ext. intros k. rewrite set_at_set_at. reflexivity.
Qed.

Lemma max_reduce_ok (input : Tensor) (dim : nat) :
  (dim < length (shape input))%nat ->
  max_reduce input dim =
  Ok (tabulate (set_at (shape input) dim 1)
        (fun index =>
           fold_left Operators.max (slice input dim index) (-1000000000))).
Proof. intros Hd. unfold max_reduce. apply reduce_ok, Hd. Qed.

(** Below the start value the fold never leaves it. *)
Lemma fold_max_below (l : list R) (start : R) :
  (forall x, In x l -> x < start) ->
  fold_left Operators.max l start = start.
Proof.
  induction l as [|x l IH]; intros H; cbn [fold_left]; [reflexivity|].
  assert (Hx : x < start) by (apply H; left; reflexivity).
  unfold Operators.max at 2.
  destruct (Rgt_dec start x) as [_|n]; [|lra].
  apply IH. intros y Hy. apply H. right. exact Hy.
Qed.

(** The fold is an upper bound of the start value and of the list, and
    it is one of them. *)
Lemma fold_max_bounds (l : list R) :
  forall start,
    start <= fold_left Operators.max l start /\
    (forall x, In x l -> x <= fold_left Operators.max l start) /\
    (fold_left Operators.max l start = start \/
     In (fold_left Operators.max l start) l).
Proof.
  induction l as [|x l IH]; intros start; cbn [fold_left].
  - split; [lra|]. split; [intros x []|]. left. reflexivity.
  - destruct (IH (Operators.max start x)) as (H1 & H2 & H3).
    assert (Hm : start <= Operators.max start x /\
                 x <= Operators.max start x /\
                 (Operators.max start x = start \/
                  Operators.max start x = x)).
    { unfold Operators.max. destruct (Rgt_dec start x); lra. }
    destruct Hm as (Ha & Hb & Hc).
    split; [lra|]. split.
    + intros y [<-|Hy]; [lra | apply H2, Hy].
    + destruct H3 as [H3|H3].
      * destruct Hc as [Hc|Hc].
        -- left. congruence.
        -- right. left. congruence.
      * right. right. exact H3.
Qed.

(** With an element at or above the start value, the fold is the maximum
    of the list. *)
Lemma fold_max_is_maximum (l : list R) (start : R) :
  (exists x, In x l /\ start <= x) ->
  is_maximum (fold_left Operators.max l start) l.
Proof.
  intros (x & Hin & Hx).
  destruct (fold_max_bounds l start) as (H1 & H2 & H3).
  split; [|exact H2].
  destruct H3 as [H3|H3]; [|exact H3].
  pose proof (H2 x Hin) as Hle.
  replace (fold_left Operators.max l start) with x by lra.
  exact Hin.
Qed.

Lemma argmax_ok (input : Tensor) (dim : nat) :
  (dim < length (shape input))%nat ->
  argmax input dim =
  Ok (tabulate (shape input)
        (fun index =>
           Operators.eq
             (fold_left Operators.max (slice input dim index) (-1000000000))
             (get input index))).
Proof.
  intros Hd. unfold argmax. rewrite max_reduce_ok by exact Hd.
  cbn [bind]. unfold TensorMethods.eq.
  rewrite (@zip_reduced_l _ _ input dim) by reflexivity.
  f_equal. apply tabulate_ext. intros index Hb.
  rewrite get_tabulate by (apply in_bounds_reduced, Hb).
  rewrite slice_reduced. reflexivity.
Qed.


(** The mask of [argmax] is a 0/1 tensor of the shape of the input, 1 at
    the cells that equal the output of [max_reduce] for their slice. *)
Lemma argmax_mask (input : Tensor) (dim : nat) :
  (dim < length (shape input))%nat ->
  exists mask,
    argmax input dim = Ok mask /\
    shape mask = shape input /\
    forall index,
      in_bounds index (shape input) ->
      (get mask index = 0 \/ get mask index = 1) /\
      (get mask index = 1 <->
       get input index
       = fold_left Operators.max (slice input dim index) (-1000000000)).
Proof.
  intros Hd. eexists. split; [apply argmax_ok, Hd|].
  split; [reflexivity|]. intros index Hb.
  rewrite get_tabulate by exact Hb. unfold Operators.eq.
  destruct (Req_dec_T _ _) as [e|n].
  - split; [right; reflexivity|]. split; intros _; [symmetry; exact e|].
    reflexivity.
  - split; [left; reflexivity|]. split; [lra|].
    intros e. exfalso. apply n. symmetry. exact e.
Qed.

(** Where a slice has a cell at or above the start value of [max_reduce],
    the 1-entries of [argmax] in the slice are the positions of its
    maximum, and there is at least one. *)
Lemma argmax_above_start (input : Tensor) (dim : nat) (index : list nat) :
  (dim < length (shape input))%nat ->
  in_bounds index (shape input) ->
  (exists x, In x (slice input dim index) /\ -1000000000 <= x) ->
  exists mask m,
    argmax input dim = Ok mask /\
    is_maximum m (slice input dim index) /\
    (get mask index = 1 <-> get input index = m) /\
    In 1 (slice mask dim index).
Proof.
  intros Hd Hb Hx.
  destruct (argmax_mask input Hd) as (mask & Hm & Hs & Hget).
  pose proof (fold_max_is_maximum _ Hx) as Hmax.
  exists mask, (fold_left Operators.max (slice input dim index) (-1000000000)).
  split; [exact Hm|]. split; [exact Hmax|].
  split; [apply Hget, Hb|].
  destruct Hmax as [Hin _]. unfold slice in Hin |- *.
  apply in_map_iff in Hin. destruct Hin as (s & Hs1 & Hs2).
  apply in_map_iff. exists s. rewrite Hs. split; [|exact Hs2].
  assert (Hbs : in_bounds (set_at index dim s) (shape input)).
  { rewrite <- (set_at_set_at index dim 0 s).
    apply in_bounds_slice.
    - apply in_bounds_reduced, Hb.
    - apply in_seq in Hs2. lia. }
  apply (Hget _ Hbs). rewrite Hs1, slice_set_at. reflexivity.
Qed.


Lemma max_is_max_reduce (input : Tensor) (dim : nat) :
  max input dim = max_reduce input dim.
Proof.
  unfold max, Max_apply, Max_forward.
  destruct (max_reduce input dim); reflexivity.
Qed.

(** Viewing a pooled 5-dimensional tensor, whose last axis has length 1,
    as a 4-dimensional one keeps every cell in place. *)
Lemma view_pooled (B C nh nw : nat) (F : list nat -> R) :
  exists st,
    view (tabulate [B; C; nh; nw; 1%nat] F) [B; C; nh; nw]
    = Ok (make st [B; C; nh; nw]) /\
    forall b c i j,
      (b < B)%nat -> (c < C)%nat -> (i < nh)%nat -> (j < nw)%nat ->
      get (make st [B; C; nh; nw]) [b; c; i; j] = F [b; c; i; j; 0%nat].
Proof.
  eexists. split.
  - apply view_tabulate.
    unfold size_of. cbn [fold_right]. ring.
  - intros b c i j Hb Hc Hi Hj.
    unfold get. cbn [make storage strides].
    replace (index_to_position [b; c; i; j]
               (strides_from_shape [B; C; nh; nw]))
      with (index_to_position [b; c; i; j; 0%nat]
              (strides_from_shape [B; C; nh; nw; 1%nat]))
      by (cbn [index_to_position strides_from_shape];
          unfold size_of; cbn [fold_right]; ring).
    apply nth_storage_tabulate.
    repeat constructor; assumption.
Qed.

Lemma maxpool2d_blocks (input : Tensor)
    (batch channel height width kh kw : nat) :
  shape input = [batch; channel; height; width] ->
  divisible height width (kh, kw) ->
  exists y,
    maxpool2d input (kh, kw) = Ok y /\
    shape y = [batch; channel; (height / kh)%nat; (width / kw)%nat] /\
    forall b c i j,
      (b < batch)%nat -> (c < channel)%nat ->
      (i < height / kh)%nat -> (j < width / kw)%nat ->
      get y [b; c; i; j]
      = fold_left Operators.max (block input (kh, kw) b c i j)
          (-1000000000).
Proof.
  intros Hsh Hdiv.
  destruct (tile_divisible input Hsh Hdiv)
    as (st & Htile & _ & _ & Hblock).
  unfold maxpool2d. rewrite Hsh, Htile. cbn [bind].
  rewrite max_is_max_reduce, max_reduce_ok by (cbn; lia).
  cbn [bind make shape set_at].
  destruct (view_pooled batch channel (height / kh) (width / kw)
              (fun index =>
                 fold_left Operators.max
                   (slice (make st [batch; channel; (height / kh)%nat;
                                    (width / kw)%nat; (kh * kw)%nat])
                          4 index) (-1000000000)))
    as (st' & Hview & Hget).
  rewrite Hview. eexists. split; [reflexivity|]. split; [reflexivity|].
  intros b c i j Hb Hc Hi Hj.
  rewrite Hget by assumption. rewrite Hblock by assumption. reflexivity.
Qed.

End MaxReduce.

(** C10.  [max_reduce] starts every cell at -1e9.  For an input whose
    cells along a reduction slice are all strictly less than -1e9,
    [max(input, dim)] returns -1e9 for that slice, a value larger than
    every cell of the slice, and [argmax(input, dim)] is 0 on the whole
    slice; likewise [maxpool2d] returns -1e9 for a block whose cells are
    all below -1e9. *)
Theorem max_below_start :
  (forall (input : Tensor) (dim : nat) (index : list nat),
     dim < length (shape input) ->
     in_bounds index (shape input) ->
     (forall x, In x (slice input dim index) -> (x < -1000000000)%R) ->
     exists out mask,
       max input dim = Ok out /\
       get out (set_at index dim 0) = (-1000000000)%R /\
       (forall x, In x (slice input dim index) ->
                  (x < get out (set_at index dim 0))%R) /\
       argmax input dim = Ok mask /\
       shape mask = shape input /\
       (forall x, In x (slice mask dim index) -> x = 0%R)) /\
  (forall (input : Tensor) (batch channel height width kh kw b c i j : nat),
     shape input = [batch; channel; height; width] ->
     divisible height width (kh, kw) ->
     b < batch -> c < channel -> i < height / kh -> j < width / kw ->
     (forall x, In x (block input (kh, kw) b c i j) ->
                (x < -1000000000)%R) ->
     exists y,
       maxpool2d input (kh, kw) = Ok y /\
       get y [b; c; i; j] = (-1000000000)%R).
Proof.
  split.
  - intros input dim index Hd Hb Hlow.
    pose proof (fold_max_below _ Hlow) as Hfold.
    assert (Hout : get (tabulate (set_at (shape input) dim 1)
                     (fun index0 =>
                        fold_left Operators.max (slice input dim index0)
                          (-1000000000)%R))
                     (set_at index dim 0) = (-1000000000)%R).
    { rewrite get_tabulate by (apply in_bounds_reduced, Hb).
      rewrite slice_reduced. exact Hfold. }
    eexists. eexists.
    split; [rewrite max_is_max_reduce; apply max_reduce_ok, Hd|].
    split; [exact Hout|].
    split; [intros x Hx; rewrite Hout; apply Hlow, Hx|].
    split; [apply argmax_ok, Hd|].
    split; [reflexivity|].
    intros x Hx. unfold slice at 1 in Hx. rewrite shape_tabulate in Hx.
    apply in_map_iff in Hx. destruct Hx as (s & <- & Hs).
    apply in_seq in Hs.
    assert (Hbs : in_bounds (set_at index dim s) (shape input)).
    { rewrite <- (set_at_set_at index dim 0 s).
      apply in_bounds_slice; [apply in_bounds_reduced, Hb | lia]. }
    rewrite get_tabulate by exact Hbs.
    rewrite slice_set_at.
    rewrite Hfold. unfold Operators.eq.
    destruct (Req_dec_T _ _) as [e|_]; [|reflexivity].
    assert (Hin : In (get input (set_at index dim s))
                     (slice input dim index)).
    { unfold slice. apply in_map_iff. exists s.
      split; [reflexivity | apply in_seq; lia]. }
    apply Hlow in Hin. lra.
  - intros input batch channel height width kh kw b c i j
      Hsh Hdiv Hb Hc Hi Hj Hlow.
    destruct (maxpool2d_blocks input Hsh Hdiv) as (y & Hy & _ & Hget).
    exists y. split; [exact Hy|].
    rewrite Hget by assumption. apply fold_max_below, Hlow.
Qed.

Lemma max_below_start_witness :
  (exists out mask,
     max (make [-2000000000; -3000000000]%R [2]) 0 = Ok out /\
     get out [0] = (-1000000000)%R /\
     argmax (make [-2000000000; -3000000000]%R [2]) 0 = Ok mask /\
     (forall x, In x (slice mask 0 [0]) -> x = 0%R)) /\
  (exists y,
     maxpool2d (make [-2000000000; -3000000000]%R [1; 1; 1; 2]) (1, 2)
     = Ok y /\
     get y [0; 0; 0; 0] = (-1000000000)%R).
Proof.
  destruct max_below_start as [Hmax Hpool]. split.
  - destruct (Hmax (make [-2000000000; -3000000000]%R [2]) 0 [0])
      as (out & mask & H1 & H2 & _ & H3 & _ & H4).
    + cbn. lia.
    + repeat constructor.
    + intros x [<-|[<-|[]]]; cbn; lra.
    + exists out, mask. repeat split; assumption.
  - apply (Hpool (make [-2000000000; -3000000000]%R [1; 1; 1; 2])
             1 1 1 2 1 2 0 0 0 0 eq_refl).
    + split; reflexivity.
    + lia.
    + lia.
    + cbn. lia.
    + cbn. lia.
    + intros x [<-|[<-|[]]]; cbn; lra.
Defined.

(** C4, at an input whose only cell lies below the start value of
    [max_reduce]: the cell is the maximum of its slice and [argmax] marks
    no position of the slice. *)
Theorem argmax_below_start_marks_nothing :
  is_maximum (get (make [-2000000000]%R [1]) [0])
             (slice (make [-2000000000]%R [1]) 0 [0]) /\
  argmax (make [-2000000000]%R [1]) 0 = Ok (make [0%R] [1]) /\
  ~ In 1%R (slice (make [0%R] [1]) 0 [0]).
Proof.
  split; [|split].
  - split.
    + left. reflexivity.
    + intros x [<-|[]]. cbn. lra.
  - change (argmax (make [-2000000000]%R [1]) 0)
      with (Ok (make [Operators.eq
                        (Operators.max (-1000000000) (-2000000000))
                        (-2000000000)%R] [1])).
    unfold Operators.max, Operators.eq.
    destruct (Rgt_dec _ _) as [_|n]; [|exfalso; apply n; lra].
    destruct (Req_dec_T _ _) as [e|_]; [lra | reflexivity].
  - intros [H|[]]. cbn in H. lra.
Qed.

(** C3.  After [Max.forward] on an input and a valid axis, [Max.backward]
    returns, for every upstream gradient of the shape of the output, the
    product [(out == input) * grad_output] as the gradient of the input:
    a cell that equals the saved maximum [out] of its slice gets the
    upstream gradient of the slice (every tied cell does), any other cell
    gets 0; the gradient returned for [dim] is 0.0.  The saved maximum is
    what [max_reduce] computed, the greatest cell of the slice whenever
    the slice has a cell at or above -1e9. *)
Theorem Max_backward_spec (ctx0 : Context) (input : Tensor) (dim : nat) :
  dim < length (shape input) ->
  exists ctx out,
    Max_forward ctx0 input dim = Ok (ctx, out) /\
    max_reduce input dim = Ok out /\
    saved_values ctx = [input; out] /\
    forall grad_output,
      shape grad_output = shape out ->
      exists g,
        Max_backward ctx grad_output = Ok (g, 0%R) /\
        shape g = shape input /\
        forall index,
          in_bounds index (shape input) ->
          let m := get out (set_at index dim 0) in
          let upstream := get grad_output (set_at index dim 0) in
          m = reduced_max input dim index /\
          ((exists v, In v (slice input dim index) /\
                      (-1000000000 <= v)%R) ->
           is_maximum m (slice input dim index)) /\
          get g index
          = (Operators.eq m (get input index) * upstream)%R /\
          (get input index = m -> get g index = upstream) /\
          (get input index <> m -> get g index = 0%R).
Proof.
  intros Hd. unfold Max_forward.
  rewrite max_reduce_ok by exact Hd. cbn [bind].
  set (out := tabulate _ _).
  exists (save_for_backward ctx0 [input; out]), out.
  split; [reflexivity|]. split; [reflexivity|]. split; [reflexivity|].
  intros grad_output Hg.
  unfold Max_backward. cbn [save_for_backward saved_values].
  unfold TensorMethods.eq, TensorMethods.mul.
  rewrite (@zip_reduced_l _ out input dim) by reflexivity.
  cbn [bind].
  rewrite (@zip_reduced_r _ _ grad_output dim)
    by (rewrite Hg; reflexivity).
  cbn [bind]. eexists. split; [reflexivity|]. split; [reflexivity|].
  intros index Hb.
  rewrite shape_tabulate. rewrite !get_tabulate by exact Hb.
  assert (Hm : get out (set_at index dim 0) = reduced_max input dim index).
  { unfold out. rewrite get_tabulate by (apply in_bounds_reduced, Hb).
    unfold reduced_max. rewrite slice_set_at. reflexivity. }
  set (m := get out (set_at index dim 0)) in *.
  set (upstream := get grad_output (set_at index dim 0)).
  split; [exact Hm|].
  split; [intros Hv; rewrite Hm; apply fold_max_is_maximum, Hv|].
  split; [reflexivity|]. unfold Operators.eq.
  destruct (Req_dec_T m (get input index)) as [e|n].
  - split; [intros _; lra | intros H; congruence].
  - split; [intros H; congruence | intros _; lra].
Qed.

Lemma Max_backward_spec_witness :
  exists ctx out,
    Max_forward empty_context (make [1; 3; 3]%R [3]) 0 = Ok (ctx, out) /\
    exists g,
      Max_backward ctx (make [5%R] [1]) = Ok (g, 0%R) /\
      shape g = [3] /\
      forall index,
        in_bounds index [3] ->
        (get (make [1; 3; 3]%R [3]) index = get out [0] ->
         get g index = 5%R) /\
        (get (make [1; 3; 3]%R [3]) index <> get out [0] ->
         get g index = 0%R).
Proof.
  destruct (@Max_backward_spec empty_context (make [1; 3; 3]%R [3]) 0)
    as (ctx & out & Hf & Hr & _ & Hback).
  - cbn. lia.
  - exists ctx, out. split; [exact Hf|].
    destruct (Hback (make [5%R] [1])) as (g & Hg & Hs & Hget).
    + unfold max_reduce, FastOps.reduce in Hr. cbn [shape make length Nat.ltb Nat.leb] in Hr.
      injection Hr as <-. reflexivity.
    + exists g. split; [exact Hg|]. split; [exact Hs|].
      intros index Hb.
      assert (E : set_at index 0 0 = [0]).
      { inversion Hb as [|i ? l ? Hi T]; subst. inversion T; subst.
        reflexivity. }
      destruct (Hget index Hb) as (_ & _ & _ & H1 & H2).
      rewrite E in H1, H2. split; assumption.
Defined.

Section Mean.

Lemma sum_ok (a : Tensor) (dim : nat) :
  dim < length (shape a) ->
  TensorMethods.sum a dim =
  Ok (tabulate (set_at (shape a) dim 1)
        (fun index => Rsum (slice a dim index))).
Proof. intros Hd. unfold TensorMethods.sum. apply reduce_ok, Hd. Qed.

Lemma shape_at_ok (a : Tensor) (dim : nat) :
  dim < length (shape a) ->
  TensorMethods.shape_at a dim = Ok (nth dim (shape a) 0).
Proof.
  intros Hd. unfold TensorMethods.shape_at.
  rewrite (nth_error_nth' (shape a) 0 Hd). reflexivity.
Qed.

Lemma set_at_not_nil (l : list nat) (i v : nat) :
  i < length l -> set_at l i v <> [].
Proof.
  intros Hi E. apply (f_equal (@length nat)) in E.
  rewrite length_set_at in E. cbn in E. lia.
Qed.

(** The mean along a valid axis returns, and each of its cells is the sum
    of the slice of the cell divided by the length of the axis. *)
Lemma mean_ok (a : Tensor) (dim : nat) :
  dim < length (shape a) ->
  TensorMethods.mean a dim =
  Ok (tabulate (set_at (shape a) dim 1)
        (fun index =>
           (Rsum (slice a dim index) / INR (nth dim (shape a) 0%nat))%R)).
Proof.
  intros Hd. unfold TensorMethods.mean.
  rewrite sum_ok, shape_at_ok by exact Hd. cbn [bind].
  unfold TensorMethods.div.
  rewrite zip_scalar_r by (rewrite shape_tabulate; apply set_at_not_nil, Hd).
  f_equal. rewrite shape_tabulate. apply tabulate_ext. intros index Hb.
  rewrite get_tabulate by exact Hb. reflexivity.
Qed.

Lemma fold_Rplus_constant (l : list R) (v : R) :
  (forall x, In x l -> x = v) ->
  forall acc, fold_left Rplus l acc = (acc + INR (length l) * v)%R.
Proof.
  induction l as [|x l IH]; intros H acc.
  - cbn. lra.
  - cbn [fold_left]. rewrite IH by (intros y Hy; apply H; right; exact Hy).
    change (length (x :: l)) with (S (length l)).
    rewrite S_INR, (H x) by (left; reflexivity). lra.
Qed.

(** The mean of a non-empty list of equal numbers is that number. *)
Lemma arithmetic_mean_constant (l : list R) (v : R) :
  l <> [] -> (forall x, In x l -> x = v) -> arithmetic_mean l = v.
Proof.
  intros Hne H. unfold arithmetic_mean, Rsum.
  rewrite (fold_Rplus_constant l H).
  assert (Hlen : (0 < INR (length l))%R).
  { apply lt_0_INR. destruct l; [congruence | cbn; lia]. }
  field. lra.
Qed.

Lemma length_block (input : Tensor) (kh kw b c i j : nat) :
  length (block input (kh, kw) b c i j) = kh * kw.
Proof.
  unfold block.
  rewrite (grid_seq (fun p q => get input [b; c; i * kh + p; j * kw + q])).
  rewrite length_map, length_seq. reflexivity.
Qed.

Lemma avgpool2d_blocks (input : Tensor)
    (batch channel height width kh kw : nat) :
  shape input = [batch; channel; height; width] ->
  divisible height width (kh, kw) ->
  exists y,
    avgpool2d input (kh, kw) = Ok y /\
    shape y = [batch; channel; height / kh; width / kw] /\
    forall b c i j,
      b < batch -> c < channel -> i < height / kh -> j < width / kw ->
      get y [b; c; i; j] = arithmetic_mean (block input (kh, kw) b c i j).
Proof.
  intros Hsh Hdiv.
  destruct (tile_divisible input Hsh Hdiv)
    as (st & Htile & _ & _ & Hblock).
  unfold avgpool2d. rewrite Hsh, Htile. cbn [bind].
  rewrite mean_ok by (cbn; lia).
  cbn [bind make shape set_at nth].
  destruct (view_pooled batch channel (height / kh) (width / kw)
              (fun index =>
                 Rdiv (Rsum (slice (make st [batch; channel; height / kh;
                                             width / kw; kh * kw])
                               4 index)) (INR (kh * kw))))
    as (st' & Hview & Hget).
  rewrite Hview. eexists. split; [reflexivity|]. split; [reflexivity|].
  intros b c i j Hb Hc Hi Hj.
  rewrite Hget by assumption. rewrite Hblock by assumption.
  unfold arithmetic_mean. rewrite length_block. reflexivity.
Qed.

End Mean.

(** C7.  For a 4-dimensional input of shape batch x channel x height x
    width and a kernel (kh, kw) that divides height and width, [avgpool2d]
    returns a tensor of shape batch x channel x height/kh x width/kw whose
    entry (b, c, i, j) is the arithmetic mean of the kh*kw cells of block
    (i, j) of image (b, c); a block that holds the value [v] everywhere
    is pooled to [v]. *)
Theorem avgpool2d_spec (input : Tensor)
    (batch channel height width kh kw : nat) :
  shape input = [batch; channel; height; width] ->
  divisible height width (kh, kw) ->
  exists y,
    avgpool2d input (kh, kw) = Ok y /\
    shape y = [batch; channel; height / kh; width / kw] /\
    forall b c i j,
      b < batch -> c < channel -> i < height / kh -> j < width / kw ->
      length (block input (kh, kw) b c i j) = kh * kw /\
      get y [b; c; i; j] = arithmetic_mean (block input (kh, kw) b c i j) /\
      forall v,
        (forall x, In x (block input (kh, kw) b c i j) -> x = v) ->
        get y [b; c; i; j] = v.
Proof.
  intros Hsh Hdiv.
  destruct (avgpool2d_blocks input Hsh Hdiv) as (y & Hy & Hs & Hget).
  exists y. split; [exact Hy|]. split; [exact Hs|].
  intros b c i j Hb Hc Hi Hj.
  split; [apply length_block|]. split; [apply Hget; assumption|].
  intros v Hv. rewrite Hget by assumption.
  apply arithmetic_mean_constant; [|exact Hv].
  destruct Hdiv as [Hh Hw]. apply py_mod_exact in Hh, Hw.
  intros E. apply (f_equal (@length R)) in E.
  rewrite length_block in E. cbn [length] in E. nia.
Qed.

Lemma avgpool2d_spec_witness :
  exists y,
    avgpool2d (make [7; 7; 2; 4]%R [1; 1; 1; 4]) (1, 2) = Ok y /\
    shape y = [1; 1; 1; 2] /\
    get y [0; 0; 0; 0] = 7%R /\
    get y [0; 0; 0; 1] = ((0 + 2 + 4) / INR 2)%R.
Proof.
  destruct (@avgpool2d_spec (make [7; 7; 2; 4]%R [1; 1; 1; 4])
              1 1 1 4 1 2 eq_refl) as (y & Hy & Hs & Hget).
  - split; reflexivity.
  - exists y. split; [exact Hy|]. split; [exact Hs|]. split.
    + destruct (Hget 0 0 0 0) as (_ & _ & Hc); try (cbn; lia).
      apply Hc. intros x [<-|[<-|[]]]; reflexivity.
    + destruct (Hget 0 0 0 1) as (_ & Hm & _); try (cbn; lia).
      rewrite Hm. reflexivity.
Defined.

Section Softmax.

Lemma fold_Rplus_pos (l : list R) :
  (forall x, In x l -> (0 < x)%R) ->
  forall acc, (0 < acc)%R -> (0 < fold_left Rplus l acc)%R.
Proof.
  induction l as [|x l IH]; intros H acc Hacc; cbn [fold_left].
  - exact Hacc.
  - apply IH.
    + intros y Hy. apply H. right. exact Hy.
    + assert (0 < x)%R by (apply H; left; reflexivity). lra.
Qed.

Lemma Rsum_pos (l : list R) :
  l <> [] -> (forall x, In x l -> (0 < x)%R) -> (0 < Rsum l)%R.
Proof.
  intros Hne H. destruct l as [|x l]; [congruence|].
  unfold Rsum. cbn [fold_left]. apply fold_Rplus_pos.
  - intros y Hy. apply H. right. exact Hy.
  - assert (0 < x)%R by (apply H; left; reflexivity). lra.
Qed.

(** The partition sum of the slice through an index of the tensor is
    positive. *)
Lemma partition_sum_pos (a : Tensor) (dim : nat) (index : list nat) :
  in_bounds index (shape a) -> dim < length (shape a) ->
  (0 < partition_sum a dim index)%R.
Proof.
  intros Hb Hd. unfold partition_sum. apply Rsum_pos.
  - pose proof (In_slice a Hb Hd) as Hin.
    intros E. apply map_eq_nil in E. rewrite E in Hin. exact Hin.
  - intros y Hy. apply in_map_iff in Hy. destruct Hy as (v & <- & _).
    apply exp_pos.
Qed.

Lemma Max_apply_ok (input : Tensor) (dim : nat) :
  dim < length (shape input) ->
  Max_apply input dim =
  Ok (tabulate (set_at (shape input) dim 1) (reduced_max input dim)).
Proof.
  intros Hd. unfold Max_apply, Max_forward.
  rewrite max_reduce_ok by exact Hd. reflexivity.
Qed.

Lemma reduced_max_set_at (a : Tensor) (dim : nat) (index : list nat)
    (s : nat) :
  reduced_max a dim (set_at index dim s) = reduced_max a dim index.
Proof. unfold reduced_max. rewrite slice_set_at. reflexivity. Qed.

(** The shifted exponentials that both [softmax] and [logsoftmax] build,
    and their sums along the axis. *)
Lemma shifted_exp_sum (input : Tensor) (dim : nat) :
  dim < length (shape input) ->
  TensorMethods.sum
    (TensorMethods.exp
       (tabulate (shape input)
          (fun index =>
             (get input index
              - get (tabulate (set_at (shape input) dim 1)
                       (reduced_max input dim))
                    (set_at index dim 0))%R)))
    dim
  = Ok (tabulate (set_at (shape input) dim 1) (partition_sum input dim)).
Proof.
  intros Hd. rewrite sum_ok by exact Hd.
  f_equal. unfold TensorMethods.exp, FastOps.map.
  rewrite !shape_tabulate.
  apply tabulate_ext. intros index Hb.
  unfold partition_sum. f_equal.
  unfold slice at 1. rewrite shape_tabulate.
  unfold slice. rewrite map_map.
  apply map_ext_in. intros s Hs. apply in_seq in Hs.
  assert (Hbs : in_bounds (set_at index dim s) (shape input))
    by (apply in_bounds_slice; [exact Hb | lia]).
  rewrite !get_tabulate by exact Hbs.
  rewrite get_tabulate by (apply in_bounds_reduced, Hbs).
  rewrite !reduced_max_set_at. reflexivity.
Qed.


Lemma softmax_ok (input : Tensor) (dim : nat) :
  dim < length (shape input) ->
  softmax input dim =
  Ok (tabulate (shape input)
        (fun index =>
           (exp (get input index - reduced_max input dim index)
            / partition_sum input dim index)%R)).
Proof.
  intros Hd. unfold softmax.
  rewrite Max_apply_ok by exact Hd. cbn [bind].
  unfold TensorMethods.sub.
  rewrite (@zip_reduced_r _ input _ dim) by reflexivity. cbn [bind].
  rewrite shifted_exp_sum by exact Hd. cbn [bind].
  unfold TensorMethods.div.
  rewrite (@zip_reduced_r _ _ _ dim) by reflexivity.
  f_equal. unfold TensorMethods.exp, FastOps.map.
  rewrite !shape_tabulate.
  apply tabulate_ext. intros index Hb.
  rewrite !get_tabulate by exact Hb.
  rewrite !get_tabulate by (apply in_bounds_reduced, Hb).
  rewrite reduced_max_set_at.
  unfold partition_sum. rewrite reduced_max_set_at, slice_set_at.
  reflexivity.
Qed.

Lemma logsoftmax_ok (input : Tensor) (dim : nat) :
  dim < length (shape input) ->
  logsoftmax input dim =
  Ok (tabulate (shape input)
        (fun index =>
           (get input index
            - (ln (partition_sum input dim index)
               + reduced_max input dim index))%R)).
Proof.
  intros Hd. unfold logsoftmax.
  rewrite Max_apply_ok by exact Hd. cbn [bind].
  unfold TensorMethods.sub at 1.
  rewrite (@zip_reduced_r _ input _ dim) by reflexivity. cbn [bind].
  rewrite shifted_exp_sum by exact Hd. cbn [bind].
  unfold TensorMethods.add, TensorMethods.log, FastOps.map.
  rewrite zip_same by reflexivity. cbn [bind].
  unfold TensorMethods.sub.
  rewrite (@zip_reduced_r _ input _ dim) by reflexivity.
  f_equal. rewrite !shape_tabulate.
  apply tabulate_ext. intros index Hb.
  pose proof (in_bounds_reduced dim Hb) as Hb0.
  rewrite !get_tabulate by exact Hb0.
  rewrite reduced_max_set_at.
  unfold partition_sum. rewrite reduced_max_set_at, slice_set_at.
  reflexivity.
Qed.

End Softmax.

(** C5.  For an input and a valid axis, [logsoftmax] and [softmax] return
    tensors of the shape of the input, and the elementwise exponential of
    the first is the second: at every position
    [exp (x_i - (ln (sum_j exp (x_j - max)) + max))] equals
    [exp (x_i - max) / sum_j exp (x_j - max)], in exact real arithmetic. *)
Theorem exp_logsoftmax_is_softmax (x : Tensor) (dim : nat) :
  dim < length (shape x) ->
  exists ls sm,
    logsoftmax x dim = Ok ls /\
    softmax x dim = Ok sm /\
    shape ls = shape x /\
    shape sm = shape x /\
    TensorMethods.exp ls = sm /\
    forall index,
      in_bounds index (shape x) ->
      let mx := reduced_max x dim index in
      let total := partition_sum x dim index in
      get ls index = (get x index - (ln total + mx))%R /\
      get sm index = (exp (get x index - mx) / total)%R /\
      exp (get ls index) = get sm index.
Proof.
  intros Hd.
  assert (Hpoint : forall index,
            in_bounds index (shape x) ->
            exp (get x index
                 - (ln (partition_sum x dim index)
                    + reduced_max x dim index))
            = (exp (get x index - reduced_max x dim index)
               / partition_sum x dim index)%R).
  { intros index Hb.
    pose proof (partition_sum_pos x Hb Hd) as Hpos.
    replace (get x index
             - (ln (partition_sum x dim index) + reduced_max x dim index))%R
      with ((get x index - reduced_max x dim index)
            + - ln (partition_sum x dim index))%R by ring.
    rewrite exp_plus, exp_Ropp, exp_ln by exact Hpos. reflexivity. }
  eexists. eexists.
  split; [apply logsoftmax_ok, Hd|].
  split; [apply softmax_ok, Hd|].
  split; [reflexivity|]. split; [reflexivity|]. split.
  - unfold TensorMethods.exp, FastOps.map. rewrite shape_tabulate.
    apply tabulate_ext. intros index Hb.
    rewrite get_tabulate by exact Hb. apply Hpoint, Hb.
  - intros index Hb. cbv zeta.
    rewrite !get_tabulate by exact Hb.
    split; [reflexivity|]. split; [reflexivity|]. apply Hpoint, Hb.
Qed.

Lemma exp_logsoftmax_is_softmax_witness :
  exists ls sm,
    logsoftmax (make [1; 2; 3; 4]%R [2; 2]) 1 = Ok ls /\
    softmax (make [1; 2; 3; 4]%R [2; 2]) 1 = Ok sm /\
    TensorMethods.exp ls = sm.
Proof.
  destruct (@exp_logsoftmax_is_softmax (make [1; 2; 3; 4]%R [2; 2]) 1)
    as (ls & sm & Hl & Hs & _ & _ & He & _).
  - cbn. lia.
  - exists ls, sm. repeat split; assumption.
Defined.

Section Dropout.

(** A cell of the noise tensor is one sample of the generator. *)
Lemma get_rand (sh : list nat) (rng : nat -> R) (index : list nat) :
  in_bounds index sh ->
  get (TensorMethods.rand sh rng) index
  = rng (index_to_position index (strides_from_shape sh)).
Proof.
  intros Hb. unfold get, TensorMethods.rand. cbn [make storage strides].
  pose proof (position_lt Hb) as Hlt.
  set (p := index_to_position index (strides_from_shape sh)) in *.
  rewrite nth_indep with (d' := rng 0)
    by (rewrite length_map, length_seq; exact Hlt).
  rewrite (map_nth rng (seq 0 (size_of sh)) 0 p).
  rewrite seq_nth by exact Hlt. reflexivity.
Qed.

Lemma lt_zero_positive (r : R) : (0 < r)%R -> Operators.lt 0 r = 1%R.
Proof.
  intros H. unfold Operators.lt.
  destruct (Rlt_dec 0 r) as [_|n]; [reflexivity | contradiction].
Qed.

(** With a rate of 0 and samples above 0, [dropout] copies a tensor that
    has at least one axis. *)
Lemma dropout_rate_zero_copy (input : Tensor) (rng : nat -> R) :
  shape input <> [] ->
  (forall k, (0 < rng k)%R) ->
  dropout input 0 false rng = Ok (tabulate (shape input) (get input)).
Proof.
  intros Hne Hpos. unfold dropout.
  unfold TensorMethods.lt.
  rewrite zip_scalar_l by exact Hne. cbn [bind].
  unfold TensorMethods.mul.
  rewrite zip_same by reflexivity.
  f_equal. apply tabulate_ext. intros index Hb.
  change (shape (TensorMethods.rand (shape input) rng)) with (shape input).
  rewrite get_tabulate by exact Hb.
  rewrite get_rand by exact Hb.
  rewrite lt_zero_positive by apply Hpos. ring.
Qed.

(** The same on a tensor without axes, which comes back with one axis of
    length 1. *)
Lemma dropout_rate_zero_scalar (input : Tensor) (rng : nat -> R) :
  shape input = [] ->
  (forall k, (0 < rng k)%R) ->
  exists out,
    dropout input 0 false rng = Ok out /\
    shape out = [1] /\
    elements out = elements input.
Proof.
  intros Hsh Hpos. destruct input as [st sh strd]. cbn [shape] in Hsh.
  subst sh. eexists. split; [reflexivity|]. split; [reflexivity|].
  unfold elements, get. cbn.
  rewrite lt_zero_positive by apply Hpos.
  f_equal. ring.
Qed.

End Dropout.

(** C6, as amended.  With [ignore=True], [dropout] returns its input, for
    every rate and every noise.  With rate 0 and [ignore=False] it returns
    a tensor with the elements of the input, whenever every sample of the
    noise is strictly greater than 0: the same shape and the same value at
    every position for an input with at least one axis, the one element
    under shape (1,) for an input without axes. *)
Theorem dropout_identity (input : Tensor) (rng : nat -> R) :
  (forall rate, dropout input rate true rng = Ok input) /\
  ((forall k, (0 < rng k)%R) ->
   exists out,
     dropout input 0 false rng = Ok out /\
     elements out = elements input /\
     (shape input <> [] ->
      shape out = shape input /\
      forall index,
        in_bounds index (shape input) -> get out index = get input index)).
Proof.
  split; [reflexivity|]. intros Hpos.
  destruct (list_eq_dec Nat.eq_dec (shape input) []) as [Hnil|Hne].
  - destruct (@dropout_rate_zero_scalar input rng Hnil Hpos)
      as (out & Hout & _ & Hel).
    exists out. split; [exact Hout|]. split; [exact Hel|].
    intros Hne. contradiction.
  - eexists. split; [apply dropout_rate_zero_copy; assumption|].
    split.
    + rewrite elements_tabulate. reflexivity.
    + intros _. split; [reflexivity|].
      intros index Hb. apply get_tabulate, Hb.
Qed.

Lemma dropout_identity_witness :
  dropout (make [4; 5]%R [2]) (1 / 2) true (fun _ => (1 / 2)%R)
  = Ok (make [4; 5]%R [2]) /\
  exists out,
    dropout (make [4; 5]%R [2]) 0 false (fun _ => (1 / 2)%R) = Ok out /\
    elements out = [4; 5]%R.
Proof.
  destruct (dropout_identity (make [4; 5]%R [2]) (fun _ => (1 / 2)%R))
    as [Hign Hzero].
  split; [apply Hign|].
  destruct Hzero as (out & Hout & Hel & _).
  - intros _. lra.
  - exists out. split; [exact Hout|]. rewrite Hel. reflexivity.
Defined.

(** C6, as stated, fails: a noise sample of 0.0 is uniform noise, it is
    not greater than the rate 0, and the position is dropped. *)
Lemma dropout_rate_zero_drops_zero_sample :
  TensorMethods.uniform_noise (fun _ => 0%R) /\
  dropout (make [1%R] [1]) 0 false (fun _ => 0%R) = Ok (make [0%R] [1]) /\
  elements (make [0%R] [1]) <> elements (make [1%R] [1]).
Proof.
  split; [|split].
  - intros k. lra.
  - change (dropout (make [1%R] [1]) 0 false (fun _ => 0%R))
      with (Ok (make [(1 * Operators.lt 0 0)%R] [1])).
    unfold Operators.lt.
    destruct (Rlt_dec 0 0) as [H|_]; [lra|].
    do 2 f_equal. f_equal. ring.
  - intros E. injection E as E. cbn in E. lra.
Qed.

(** C8, on the code: [layer_norm] unpacks four axes and then reduces along
    axis 4, which a 4-dimensional tensor does not have, so it raises on
    every input: [IndexError] on a 4-dimensional one, [ValueError] at the
    unpacking of any other. *)
Theorem layer_norm_raises (input : Tensor) (eps : R) :
  layer_norm input eps
  = Raise (if length (shape input) =? 4 then IndexError else ValueError).
Proof.
  unfold layer_norm.
  destruct (shape input) as [|b [|c [|h [|w [|x sh]]]]] eqn:Hsh;
    try reflexivity.
  unfold TensorMethods.mean, TensorMethods.sum.
  rewrite reduce_out_of_range by (rewrite Hsh; cbn; lia).
  reflexivity.
Qed.

(** C9.  [logsumexp] and [softmax_loss] raise the not-implemented failure
    on every call: for every argument and every state of the interpreter
    there is no result and the state is the one before the call. *)
Theorem logsumexp_softmax_loss_not_implemented (S : Type) :
  (forall (input : Tensor) (dim : nat) (s : S),
     logsumexp input dim s = (Raise NotImplementedError, s)) /\
  (forall (logits target : Tensor) (s : S),
     softmax_loss logits target s = (Raise NotImplementedError, s)).
Proof. split; reflexivity. Qed.

(* ================================================================== *)
(** * Further properties of [nn.py] *)

Section TileOutcome.

Lemma py_mod_zero_iff (n k : nat) :
  py_mod n k = Ok 0 <-> k <> 0 /\ n mod k = 0.
Proof.
  unfold py_mod. destruct (k =? 0) eqn:E.
  - apply Nat.eqb_eq in E. split; [discriminate | intros [H _]; congruence].
  - apply Nat.eqb_neq in E. split.
    + intros H. injection H as H. split; assumption.
    + intros [_ H]. rewrite H. reflexivity.
Qed.

(** On a 4-dimensional input [tile] goes through its checks in the order
    of the source. *)
Lemma tile_checks (input : Tensor) (batch channel height width kh kw : nat) :
  shape input = [batch; channel; height; width] ->
  (kh = 0 -> tile input (kh, kw) = Raise ZeroDivisionError) /\
  (kh <> 0 -> height mod kh <> 0 ->
   tile input (kh, kw) = Raise AssertionError) /\
  (kh <> 0 -> height mod kh = 0 -> kw = 0 ->
   tile input (kh, kw) = Raise ZeroDivisionError) /\
  (kh <> 0 -> height mod kh = 0 -> kw <> 0 -> width mod kw <> 0 ->
   tile input (kh, kw) = Raise AssertionError).
Proof.
  intros Hsh. unfold tile, py_mod. rewrite Hsh.
  repeat split.
  - intros ->. reflexivity.
  - intros Hk Hm. apply Nat.eqb_neq in Hk, Hm. rewrite Hk. cbn [bind].
    rewrite Hm. reflexivity.
  - intros Hk Hm ->. apply Nat.eqb_neq in Hk. apply Nat.eqb_eq in Hm.
    rewrite Hk. cbn [bind]. rewrite Hm. reflexivity.
  - intros Hk Hm Hk' Hm'.
    apply Nat.eqb_neq in Hk, Hk', Hm'. apply Nat.eqb_eq in Hm.
    rewrite Hk. cbn [bind]. rewrite Hm. cbn [py_assert bind].
    rewrite Hk'. cbn [bind]. rewrite Hm'. reflexivity.
Qed.

Lemma tile_not_4d (input : Tensor) (kernel : nat * nat) :
  length (shape input) <> 4 -> tile input kernel = Raise ValueError.
Proof.
  intros Hlen. unfold tile.
  destruct (shape input) as [|b [|c [|h [|w [|x sh]]]]]; try reflexivity.
  cbn in Hlen. congruence.
Qed.

(** When [tile] returns, the input has four axes and the kernel divides
    its height and width. *)
Lemma tile_returns_divisible (input : Tensor) (kh kw : nat)
    (r : Tensor * nat * nat) :
  tile input (kh, kw) = Ok r ->
  exists batch channel height width,
    shape input = [batch; channel; height; width] /\
    divisible height width (kh, kw).
Proof.
  intros Hr.
  destruct (Nat.eq_dec (length (shape input)) 4) as [Hlen|Hlen].
  - destruct (shape input) as [|b [|c [|h [|w [|x sh]]]]] eqn:Hsh;
      try discriminate Hlen.
    exists b, c, h, w. split; [reflexivity|].
    destruct (@tile_checks input b c h w kh kw Hsh)
      as (H1 & H2 & H3 & H4).
    destruct (Nat.eq_dec kh 0) as [Hk|Hk];
      [rewrite (H1 Hk) in Hr; discriminate|].
    destruct (Nat.eq_dec (h mod kh) 0) as [Hm|Hm];
      [|rewrite (H2 Hk Hm) in Hr; discriminate].
    destruct (Nat.eq_dec kw 0) as [Hk'|Hk'];
      [rewrite (H3 Hk Hm Hk') in Hr; discriminate|].
    destruct (Nat.eq_dec (w mod kw) 0) as [Hm'|Hm'];
      [|rewrite (H4 Hk Hm Hk' Hm') in Hr; discriminate].
    split; apply py_mod_zero_iff; split; assumption.
  - rewrite (tile_not_4d input (kh, kw) Hlen) in Hr. discriminate.
Qed.

End TileOutcome.

(** [tile] returns exactly on the 4-dimensional inputs whose height and
    width the kernel divides.  Otherwise it raises, by the first check
    that fails, in the order of the source: [ValueError] when the input
    does not have four axes, [ZeroDivisionError] for a zero kernel height,
    [AssertionError] for a height that is no multiple, and then the same
    two for the width. *)
Theorem tile_outcome (input : Tensor) (kh kw : nat) :
  ((exists r, tile input (kh, kw) = Ok r) <->
   exists batch channel height width,
     shape input = [batch; channel; height; width] /\
     divisible height width (kh, kw)) /\
  (length (shape input) <> 4 -> tile input (kh, kw) = Raise ValueError) /\
  (forall batch channel height width,
     shape input = [batch; channel; height; width] ->
     (kh = 0 -> tile input (kh, kw) = Raise ZeroDivisionError) /\
     (kh <> 0 -> height mod kh <> 0 ->
      tile input (kh, kw) = Raise AssertionError) /\
     (kh <> 0 -> height mod kh = 0 -> kw = 0 ->
      tile input (kh, kw) = Raise ZeroDivisionError) /\
     (kh <> 0 -> height mod kh = 0 -> kw <> 0 -> width mod kw <> 0 ->
      tile input (kh, kw) = Raise AssertionError)).
Proof.
  split; [|split].
  - split.
    + intros [r Hr]. exact (tile_returns_divisible input kh kw Hr).
    + intros (b & c & h & w & Hsh & Hdiv).
      destruct (tile_divisible input Hsh Hdiv) as (st & Ht & _).
      eexists. exact Ht.
  - apply tile_not_4d.
  - intros b c h w Hsh. exact (@tile_checks input b c h w kh kw Hsh).
Qed.

Lemma tile_outcome_witness :
  (exists r, tile (make [1; 2; 3; 4]%R [1; 1; 2; 2]) (2, 1) = Ok r) /\
  tile (make [1; 2; 3; 4]%R [2; 2]) (2, 1) = Raise ValueError /\
  tile (make [1; 2; 3; 4]%R [1; 1; 2; 2]) (0, 3) = Raise ZeroDivisionError /\
  tile (make [1; 2; 3; 4]%R [1; 1; 2; 2]) (2, 0) = Raise ZeroDivisionError /\
  tile (make [1; 2; 3; 4]%R [1; 1; 2; 2]) (2, 3) = Raise AssertionError.
Proof.
  split; [|split; [|split; [|split]]].
  - apply (tile_outcome (make [1; 2; 3; 4]%R [1; 1; 2; 2]) 2 1).
    exists 1, 1, 2, 2. split; [reflexivity | split; reflexivity].
  - apply (tile_outcome (make [1; 2; 3; 4]%R [2; 2]) 2 1).
    cbn. lia.
  - destruct (tile_outcome (make [1; 2; 3; 4]%R [1; 1; 2; 2]) 0 3)
      as (_ & _ & H).
    destruct (H 1 1 2 2 eq_refl) as (H1 & _). apply H1. reflexivity.
  - destruct (tile_outcome (make [1; 2; 3; 4]%R [1; 1; 2; 2]) 2 0)
      as (_ & _ & H).
    destruct (H 1 1 2 2 eq_refl) as (_ & _ & H3 & _).
    apply H3; [lia | reflexivity | reflexivity].
  - destruct (tile_outcome (make [1; 2; 3; 4]%R [1; 1; 2; 2]) 2 3)
      as (_ & _ & H).
    destruct (H 1 1 2 2 eq_refl) as (_ & _ & _ & H4).
    apply H4; [lia | reflexivity | lia | cbn; lia].
Defined.

Section Elements.

Lemma length_elements (t : Tensor) :
  length (elements t) = size_of (shape t).
Proof. unfold elements. rewrite length_map, length_seq. reflexivity. Qed.

Lemma nth_elements (t : Tensor) (o : nat) :
  o < size_of (shape t) ->
  nth o (elements t) 0%R = get t (to_index o (shape t)).
Proof.
  intros Ho. unfold elements.
  rewrite nth_indep with (d' := get t (to_index 0 (shape t)))
    by (rewrite length_map, length_seq; exact Ho).
  rewrite (map_nth (fun o => get t (to_index o (shape t)))
             (seq 0 (size_of (shape t))) 0 o).
  rewrite seq_nth by exact Ho. reflexivity.
Qed.

(** The elements of a tensor are its cells at the indices within its
    shape. *)
Lemma In_elements (t : Tensor) (v : R) :
  In v (elements t) <->
  exists index, in_bounds index (shape t) /\ get t index = v.
Proof.
  unfold elements. rewrite in_map_iff. split.
  - intros (o & <- & Ho). apply in_seq in Ho.
    exists (to_index o (shape t)). split; [|reflexivity].
    apply to_index_in_bounds. lia.
  - intros (index & Hb & <-).
    exists (index_to_position index (strides_from_shape (shape t))).
    split.
    + rewrite to_index_position by exact Hb. reflexivity.
    + apply in_seq. pose proof (position_lt Hb). lia.
Qed.

Lemma in_bounds_5 (index : list nat) (n0 n1 n2 n3 n4 : nat) :
  in_bounds index [n0; n1; n2; n3; n4] ->
  exists i0 i1 i2 i3 i4,
    index = [i0; i1; i2; i3; i4] /\
    i0 < n0 /\ i1 < n1 /\ i2 < n2 /\ i3 < n3 /\ i4 < n4.
Proof.
  intros H.
  inversion H as [|i0 ? l0 ? H0 T0]; subst.
  inversion T0 as [|i1 ? l1 ? H1 T1]; subst.
  inversion T1 as [|i2 ? l2 ? H2 T2]; subst.
  inversion T2 as [|i3 ? l3 ? H3 T3]; subst.
  inversion T3 as [|i4 ? l4 ? H4 T4]; subst.
  inversion T4; subst.
  exists i0, i1, i2, i3, i4. repeat split; assumption.
Qed.

(** Two indices within a shape with the same row-major position are the
    same index. *)
Lemma position_injective (sh index index' : list nat) :
  in_bounds index sh -> in_bounds index' sh ->
  index_to_position index (strides_from_shape sh)
  = index_to_position index' (strides_from_shape sh) ->
  index = index'.
Proof.
  intros Hb Hb' E.
  rewrite <- (to_index_position Hb), <- (to_index_position Hb'), E.
  reflexivity.
Qed.

Lemma to_index_injective (sh : list nat) (o o' : nat) :
  o < size_of sh -> o' < size_of sh ->
  to_index o sh = to_index o' sh -> o = o'.
Proof.
  intros Ho Ho' E.
  rewrite <- (position_to_index sh Ho), <- (position_to_index sh Ho'), E.
  reflexivity.
Qed.

(** A block offset decomposes in one way. *)
Lemma block_offset_unique (k i p i' p' : nat) :
  p < k -> p' < k -> i * k + p = i' * k + p' -> i = i' /\ p = p'.
Proof.
  intros Hp Hp' E.
  assert (Hi : i = i').
  { assert (H1 : (i * k + p) / k = i)
      by (rewrite Nat.div_add_l, Nat.div_small; lia).
    assert (H2 : (i' * k + p') / k = i')
      by (rewrite Nat.div_add_l, Nat.div_small; lia).
    rewrite <- H1, <- H2, E. reflexivity. }
  subst i'. split; [reflexivity | lia].
Qed.


(** A tensor that holds, at [(b, c, i, j, p * kw + q)], the cell
    [(b, c, i * kh + p, j * kw + q)] of the input holds the cells of the
    input, each one once. *)
Lemma tiled_permutation (input : Tensor) (st : list R)
    (B C nh nw kh kw : nat) :
  shape input = [B; C; nh * kh; nw * kw] ->
  kh <> 0 -> kw <> 0 ->
  (forall b c i j p q,
     b < B -> c < C -> i < nh -> j < nw -> p < kh -> q < kw ->
     get (make st [B; C; nh; nw; kh * kw]) [b; c; i; j; p * kw + q]
     = get input [b; c; i * kh + p; j * kw + q]) ->
  Permutation (elements input)
              (elements (make st [B; C; nh; nw; kh * kw])).
Proof.
  intros Hsh Hkh Hkw Hget.
  set (sh5 := [B; C; nh; nw; kh * kw]).
  set (sh4 := [B; C; nh * kh; nw * kw]).
  assert (Hsize : size_of sh5 = size_of sh4)
    by (unfold sh5, sh4, size_of; cbn [fold_right]; ring).
  set (source := fun index5 =>
         match index5 with
         | [b; c; i; j; k] => [b; c; i * kh + k / kw; j * kw + k mod kw]
         | _ => []
         end).
  assert (Hsrc : forall o, o < size_of sh5 ->
            exists b c i j p q,
              to_index o sh5 = [b; c; i; j; p * kw + q] /\
              source (to_index o sh5) = [b; c; i * kh + p; j * kw + q] /\
              b < B /\ c < C /\ i < nh /\ j < nw /\ p < kh /\ q < kw).
  { intros o Ho. pose proof (to_index_in_bounds sh5 Ho) as Hb.
    apply in_bounds_5 in Hb.
    destruct Hb as (b & c & i & j & k & E & Hb & Hc & Hi & Hj & Hk).
    exists b, c, i, j, (k / kw), (k mod kw).
    assert (Ek : k / kw * kw + k mod kw = k)
      by (pose proof (Nat.div_mod_eq k kw); lia).
    rewrite E. cbn [source]. rewrite Ek.
    repeat split; try assumption.
    - apply Nat.Div0.div_lt_upper_bound. lia.
    - apply Nat.mod_upper_bound. exact Hkw. }
  assert (Hin : forall b c i j p q,
            b < B -> c < C -> i < nh -> j < nw -> p < kh -> q < kw ->
            in_bounds [b; c; i * kh + p; j * kw + q] sh4).
  { intros. repeat constructor; try assumption; nia. }
  apply (Permutation_nth _ _ 0%R). cbv zeta.
  rewrite !length_elements, Hsh. cbn [make shape]. fold sh4 sh5.
  split; [exact Hsize|].
  exists (fun o =>
            index_to_position (source (to_index o sh5))
              (strides_from_shape sh4)).
  split; [|split].
  - intros o Ho. rewrite <- Hsize in Ho.
    destruct (Hsrc o Ho)
      as (b & c & i & j & p & q & _ & -> & Hb & Hc & Hi & Hj & Hp & Hq).
    apply position_lt. apply Hin; assumption.
  - intros o o' Ho Ho' E. rewrite <- Hsize in Ho, Ho'.
    destruct (Hsrc o Ho)
      as (b & c & i & j & p & q & E1 & E2 & Hb & Hc & Hi & Hj & Hp & Hq).
    destruct (Hsrc o' Ho')
      as (b' & c' & i' & j' & p' & q' & E1' & E2'
          & Hb' & Hc' & Hi' & Hj' & Hp' & Hq').
    rewrite E2, E2' in E.
    apply position_injective in E;
      [| apply Hin; assumption | apply Hin; assumption].
    injection E as Eb Ec Eh Ew.
    apply block_offset_unique in Eh; [| assumption | assumption].
    apply block_offset_unique in Ew; [| assumption | assumption].
    destruct Eh as [-> ->], Ew as [-> ->]. subst b' c'.
    apply (to_index_injective sh5 Ho Ho'). rewrite E1, E1'. reflexivity.
  - intros o Ho. rewrite <- Hsize in Ho.
    destruct (Hsrc o Ho)
      as (b & c & i & j & p & q & E1 & E2 & Hb & Hc & Hi & Hj & Hp & Hq).
    rewrite E2. rewrite nth_elements by exact Ho.
    cbn [make shape]. fold sh5. rewrite E1, Hget by assumption.
    rewrite nth_elements
      by (rewrite Hsh; fold sh4; apply position_lt, Hin; assumption).
    rewrite Hsh. fold sh4.
    rewrite to_index_position by (apply Hin; assumption). reflexivity.
Qed.

End Elements.

(** [tile] only rearranges: on a 4-dimensional input whose height and
    width the kernel divides, the cells of the tiled tensor are the cells
    of the input, each one once. *)
Theorem tile_permutes_cells (input : Tensor)
    (batch channel height width kh kw : nat) :
  shape input = [batch; channel; height; width] ->
  divisible height width (kh, kw) ->
  exists x,
    tile input (kh, kw) = Ok (x, height / kh, width / kw) /\
    Permutation (elements input) (elements x).
Proof.
  intros Hsh Hdiv.
  destruct (tile_divisible input Hsh Hdiv) as (st & Ht & _ & Hget & _).
  exists (make st [batch; channel; height / kh; width / kw; kh * kw]).
  split; [exact Ht|].
  destruct Hdiv as [Hh Hw]. apply py_mod_exact in Hh, Hw.
  destruct Hh as [Hkh Hh], Hw as [Hkw Hw].
  apply tiled_permutation; try assumption.
  rewrite <- Hh, <- Hw. exact Hsh.
Qed.

Lemma tile_permutes_cells_witness :
  exists x,
    tile (make [1; 2; 3; 4; 5; 6; 7; 8]%R [1; 1; 2; 4]) (2, 2)
    = Ok (x, 1, 2) /\
    Permutation [1; 2; 3; 4; 5; 6; 7; 8]%R (elements x).
Proof.
  apply (@tile_permutes_cells
           (make [1; 2; 3; 4; 5; 6; 7; 8]%R [1; 1; 2; 4]) 1 1 2 4 2 2
           eq_refl).
  split; reflexivity.
Defined.

Section Pooling.

Lemma block_not_nil (input : Tensor) (kh kw b c i j : nat) :
  kh <> 0 -> kw <> 0 -> block input (kh, kw) b c i j <> [].
Proof.
  intros Hkh Hkw E. apply (f_equal (@length R)) in E.
  rewrite length_block in E. cbn [length] in E. nia.
Qed.

Lemma fold_Rplus_le (l : list R) (u : R) :
  (forall x, In x l -> (x <= u)%R) ->
  forall acc, (fold_left Rplus l acc <= acc + INR (length l) * u)%R.
Proof.
  induction l as [|x l IH]; intros H acc.
  - cbn. lra.
  - cbn [fold_left]. change (length (x :: l)) with (S (length l)).
    rewrite S_INR.
    assert (Hx : (x <= u)%R) by (apply H; left; reflexivity).
    pose proof (IH (fun y Hy => H y (or_intror Hy)) (acc + x)%R). lra.
Qed.

(** The mean of a non-empty list is at most any upper bound of it. *)
Lemma arithmetic_mean_le (l : list R) (u : R) :
  l <> [] -> (forall x, In x l -> (x <= u)%R) ->
  (arithmetic_mean l <= u)%R.
Proof.
  intros Hne H. unfold arithmetic_mean, Rsum.
  assert (Hlen : (0 < INR (length l))%R).
  { apply lt_0_INR. destruct l; [congruence | cbn; lia]. }
  pose proof (fold_Rplus_le l H 0) as Hs.
  apply (Rmult_le_reg_r (INR (length l))); [exact Hlen|].
  unfold Rdiv. rewrite Rmult_assoc, Rinv_l by lra. lra.
Qed.

(** Both pooling functions stop where [tile] stops. *)
Lemma pooling_raises (input : Tensor) (kernel : nat * nat) (e : exn) :
  tile input kernel = Raise e ->
  avgpool2d input kernel = Raise e /\ maxpool2d input kernel = Raise e.
Proof.
  intros Ht. unfold avgpool2d, maxpool2d.
  destruct (Nat.eq_dec (length (shape input)) 4) as [Hlen|Hlen].
  - destruct (shape input) as [|b [|c [|h [|w [|x sh]]]]] eqn:Hsh;
      try discriminate Hlen.
    rewrite Ht. split; reflexivity.
  - rewrite (tile_not_4d input kernel Hlen) in Ht. injection Ht as <-.
    destruct (shape input) as [|b [|c [|h [|w [|x sh]]]]];
      try (split; reflexivity).
    cbn in Hlen. congruence.
Qed.

Lemma pooling_returns (input : Tensor) (kernel : nat * nat)
    (r : Tensor * nat * nat) :
  tile input kernel = Ok r ->
  (exists y, avgpool2d input kernel = Ok y) /\
  (exists y, maxpool2d input kernel = Ok y).
Proof.
  destruct kernel as [kh kw]. intros Ht.
  destruct (tile_returns_divisible input kh kw Ht)
    as (b & c & h & w & Hsh & Hdiv).
  destruct (avgpool2d_blocks input Hsh Hdiv) as (y & Hy & _).
  destruct (maxpool2d_blocks input Hsh Hdiv) as (y' & Hy' & _).
  split; eexists; eassumption.
Qed.

End Pooling.

(** [avgpool2d] and [maxpool2d] return exactly when [tile] returns on the
    same arguments, and otherwise raise the exception that [tile]
    raises. *)
Theorem pooling_fails_as_tile (input : Tensor) (kernel : nat * nat) :
  (forall e,
     tile input kernel = Raise e ->
     avgpool2d input kernel = Raise e /\
     maxpool2d input kernel = Raise e) /\
  (forall r,
     tile input kernel = Ok r ->
     (exists y, avgpool2d input kernel = Ok y) /\
     (exists y, maxpool2d input kernel = Ok y)).
Proof.
  split.
  - intros e. apply pooling_raises.
  - intros r. apply pooling_returns.
Qed.

Lemma pooling_fails_as_tile_witness :
  (avgpool2d (make [1; 2; 3; 4]%R [1; 1; 2; 2]) (2, 3)
   = Raise AssertionError /\
   maxpool2d (make [1; 2; 3; 4]%R [1; 1; 2; 2]) (2, 3)
   = Raise AssertionError) /\
  ((exists y, avgpool2d (make [1; 2; 3; 4]%R [1; 1; 2; 2]) (2, 1) = Ok y) /\
   (exists y, maxpool2d (make [1; 2; 3; 4]%R [1; 1; 2; 2]) (2, 1) = Ok y)).
Proof.
  split.
  - apply (pooling_fails_as_tile (make [1; 2; 3; 4]%R [1; 1; 2; 2]) (2, 3)).
    reflexivity.
  - destruct (pooling_fails_as_tile (make [1; 2; 3; 4]%R [1; 1; 2; 2]) (2, 1))
      as [_ H].
    destruct (tile_divisible (make [1; 2; 3; 4]%R [1; 1; 2; 2])
                (batch := 1) (channel := 1) (height := 2) (width := 2)
                (kh := 2) (kw := 1) eq_refl)
      as (st & Ht & _).
    + split; reflexivity.
    + exact (H _ Ht).
Defined.

(** For a 4-dimensional input and a kernel that divides its height and
    width, [maxpool2d] returns a tensor of shape batch x channel x
    height/kh x width/kw; entry (b, c, i, j) is at least -1e9 and at least
    every cell of block (i, j) of image (b, c), and it is the greatest
    cell of the block as soon as the block has a cell at or above -1e9. *)
Theorem maxpool2d_spec (input : Tensor)
    (batch channel height width kh kw : nat) :
  shape input = [batch; channel; height; width] ->
  divisible height width (kh, kw) ->
  exists y,
    maxpool2d input (kh, kw) = Ok y /\
    shape y = [batch; channel; height / kh; width / kw] /\
    forall b c i j,
      b < batch -> c < channel -> i < height / kh -> j < width / kw ->
      (-1000000000 <= get y [b; c; i; j])%R /\
      (forall v, In v (block input (kh, kw) b c i j) ->
                 (v <= get y [b; c; i; j])%R) /\
      ((exists v, In v (block input (kh, kw) b c i j) /\
                  (-1000000000 <= v)%R) ->
       is_maximum (get y [b; c; i; j]) (block input (kh, kw) b c i j)).
Proof.
  intros Hsh Hdiv.
  destruct (maxpool2d_blocks input Hsh Hdiv) as (y & Hy & Hs & Hget).
  exists y. split; [exact Hy|]. split; [exact Hs|].
  intros b c i j Hb Hc Hi Hj. rewrite (Hget b c i j) by assumption.
  destruct (fold_max_bounds (block input (kh, kw) b c i j)
              (-1000000000)%R) as (H1 & H2 & _).
  split; [exact H1|]. split; [exact H2|].
  apply fold_max_is_maximum.
Qed.

Lemma maxpool2d_spec_witness :
  exists y,
    maxpool2d (make [1; 5; 3; 2]%R [1; 1; 2; 2]) (2, 2) = Ok y /\
    shape y = [1; 1; 1; 1] /\
    is_maximum (get y [0; 0; 0; 0]) [1; 5; 3; 2]%R.
Proof.
  destruct (@maxpool2d_spec (make [1; 5; 3; 2]%R [1; 1; 2; 2])
              1 1 2 2 2 2 eq_refl) as (y & Hy & Hs & Hget).
  - split; reflexivity.
  - exists y. split; [exact Hy|]. split; [exact Hs|].
    destruct (Hget 0 0 0 0) as (_ & _ & Hmax); try (cbn; lia).
    apply Hmax. exists 1%R. split; [left; reflexivity | lra].
Defined.

(** Average pooling never exceeds max pooling: for a 4-dimensional input
    and a kernel that divides its height and width, every entry of
    [avgpool2d] is at most the same entry of [maxpool2d]. *)
Theorem avgpool2d_le_maxpool2d (input : Tensor)
    (batch channel height width kh kw : nat) :
  shape input = [batch; channel; height; width] ->
  divisible height width (kh, kw) ->
  exists a m,
    avgpool2d input (kh, kw) = Ok a /\
    maxpool2d input (kh, kw) = Ok m /\
    shape a = shape m /\
    forall b c i j,
      b < batch -> c < channel -> i < height / kh -> j < width / kw ->
      (get a [b; c; i; j] <= get m [b; c; i; j])%R.
Proof.
  intros Hsh Hdiv.
  destruct (avgpool2d_blocks input Hsh Hdiv) as (a & Ha & Hsa & Hga).
  destruct (maxpool2d_blocks input Hsh Hdiv) as (m & Hm & Hsm & Hgm).
  exists a, m. split; [exact Ha|]. split; [exact Hm|].
  split; [congruence|].
  intros b c i j Hb Hc Hi Hj.
  rewrite Hga, Hgm by assumption.
  destruct Hdiv as [Hh Hw]. apply py_mod_exact in Hh, Hw.
  apply arithmetic_mean_le.
  - apply block_not_nil; tauto.
  - apply fold_max_bounds.
Qed.

Lemma avgpool2d_le_maxpool2d_witness :
  exists a m,
    avgpool2d (make [1; 5; 3; 2]%R [1; 1; 2; 2]) (2, 2) = Ok a /\
    maxpool2d (make [1; 5; 3; 2]%R [1; 1; 2; 2]) (2, 2) = Ok m /\
    Rle (get a [0; 0; 0; 0]) (get m [0; 0; 0; 0]).
Proof.
  destruct (@avgpool2d_le_maxpool2d (make [1; 5; 3; 2]%R [1; 1; 2; 2])
              1 1 2 2 2 2 eq_refl) as (a & m & Ha & Hm & _ & Hle).
  - split; reflexivity.
  - exists a, m. split; [exact Ha|]. split; [exact Hm|].
    apply Hle; cbn; lia.
Defined.

(** Pooling with a 1 x 1 kernel: on every 4-dimensional input
    [avgpool2d] returns a tensor that equals the input at every position,
    and [maxpool2d] one that holds the larger of -1e9 and the cell, hence
    the cell itself where it is at or above -1e9. *)
Theorem pooling_unit_kernel (input : Tensor)
    (batch channel height width : nat) :
  shape input = [batch; channel; height; width] ->
  exists a m,
    avgpool2d input (1, 1) = Ok a /\
    maxpool2d input (1, 1) = Ok m /\
    shape a = shape input /\
    shape m = shape input /\
    forall index,
      in_bounds index (shape input) ->
      get a index = get input index /\
      get m index = Operators.max (-1000000000)%R (get input index) /\
      ((-1000000000 <= get input index)%R ->
       get m index = get input index).
Proof.
  intros Hsh.
  assert (Hdiv : divisible height width (1, 1)).
  { split; unfold py_mod; cbn [Nat.eqb]; rewrite Nat.mod_1_r; reflexivity. }
  destruct (avgpool2d_blocks input Hsh Hdiv) as (a & Ha & Hsa & Hga).
  destruct (maxpool2d_blocks input Hsh Hdiv) as (m & Hm & Hsm & Hgm).
  rewrite !Nat.div_1_r in *.
  exists a, m. split; [exact Ha|]. split; [exact Hm|].
  split; [congruence|]. split; [congruence|].
  intros index Hb. rewrite Hsh in Hb. apply in_bounds_4 in Hb.
  destruct Hb as (b & c & i & j & -> & Hb & Hc & Hi & Hj).
  rewrite Hga, Hgm by assumption.
  unfold block. cbn [seq flat_map map app].
  rewrite !Nat.mul_1_r, !Nat.add_0_r.
  split; [|split].
  - unfold arithmetic_mean, Rsum. cbn [fold_left length INR]. field.
  - reflexivity.
  - intros Hge. cbn [fold_left]. unfold Operators.max.
    destruct (Rgt_dec _ _) as [Hgt|_]; [lra | reflexivity].
Qed.

Lemma pooling_unit_kernel_witness :
  exists a m,
    avgpool2d (make [1; 5; 3; 2]%R [1; 1; 2; 2]) (1, 1) = Ok a /\
    maxpool2d (make [1; 5; 3; 2]%R [1; 1; 2; 2]) (1, 1) = Ok m /\
    get a [0; 0; 0; 1] = 5%R /\
    get m [0; 0; 0; 1] = 5%R.
Proof.
  destruct (@pooling_unit_kernel (make [1; 5; 3; 2]%R [1; 1; 2; 2])
              1 1 2 2 eq_refl) as (a & m & Ha & Hm & _ & _ & Hget).
  exists a, m. split; [exact Ha|]. split; [exact Hm|].
  destruct (Hget [0; 0; 0; 1]) as (H1 & _ & H3).
  - repeat constructor.
  - split; [exact H1|]. rewrite H3; [reflexivity|]. cbn. lra.
Defined.

(** For a valid axis, [max] returns a tensor whose shape is the shape of
    the input with length 1 along the axis; the cell of a slice is at
    least -1e9 and at least every cell of the slice, and it is the
    greatest cell of the slice as soon as the slice has a cell at or above
    -1e9. *)
Theorem max_spec (input : Tensor) (dim : nat) :
  dim < length (shape input) ->
  exists out,
    max input dim = Ok out /\
    shape out = set_at (shape input) dim 1 /\
    forall index,
      in_bounds index (shape input) ->
      (-1000000000 <= get out (set_at index dim 0))%R /\
      (forall v, In v (slice input dim index) ->
                 (v <= get out (set_at index dim 0))%R) /\
      ((exists v, In v (slice input dim index) /\ (-1000000000 <= v)%R) ->
       is_maximum (get out (set_at index dim 0)) (slice input dim index)).
Proof.
  intros Hd. eexists.
  split; [rewrite max_is_max_reduce; apply max_reduce_ok, Hd|].
  split; [reflexivity|].
  intros index Hb.
  rewrite get_tabulate by (apply in_bounds_reduced, Hb).
  rewrite slice_set_at.
  destruct (fold_max_bounds (slice input dim index) (-1000000000)%R)
    as (H1 & H2 & _).
  split; [exact H1|]. split; [exact H2|].
  apply fold_max_is_maximum.
Qed.

Lemma max_spec_witness :
  exists out,
    max (make [1; 5; 3; 2]%R [2; 2]) 1 = Ok out /\
    shape out = [2; 1] /\
    is_maximum (get out [1; 0]) [3; 2]%R.
Proof.
  destruct (@max_spec (make [1; 5; 3; 2]%R [2; 2]) 1)
    as (out & Ho & Hs & Hget).
  - cbn. lia.
  - exists out. split; [exact Ho|]. split; [exact Hs|].
    destruct (Hget [1; 1]) as (_ & _ & Hmax).
    + repeat constructor.
    + apply Hmax. exists 3%R. split; [left; reflexivity | lra].
Defined.

(** An axis that the input does not have makes [max], [argmax],
    [softmax] and [logsoftmax] raise [IndexError]. *)
Theorem axis_out_of_range (input : Tensor) (dim : nat) :
  length (shape input) <= dim ->
  max input dim = Raise IndexError /\
  argmax input dim = Raise IndexError /\
  softmax input dim = Raise IndexError /\
  logsoftmax input dim = Raise IndexError.
Proof.
  intros Hd.
  assert (Hr : max_reduce input dim = Raise IndexError)
    by (unfold max_reduce; apply reduce_out_of_range, Hd).
  unfold max, argmax, softmax, logsoftmax, Max_apply, Max_forward.
  rewrite Hr. repeat split; reflexivity.
Qed.

Lemma axis_out_of_range_witness :
  max (make [1; 5; 3; 2]%R [2; 2]) 2 = Raise IndexError /\
  argmax (make [1; 5; 3; 2]%R [2; 2]) 2 = Raise IndexError /\
  softmax (make [1; 5; 3; 2]%R [2; 2]) 2 = Raise IndexError /\
  logsoftmax (make [1; 5; 3; 2]%R [2; 2]) 2 = Raise IndexError.
Proof.
  apply (@axis_out_of_range (make [1; 5; 3; 2]%R [2; 2]) 2).
  cbn. lia.
Defined.

(** For a valid axis, [argmax] returns a tensor of the shape of the input
    whose cells are 0 or 1.  In a slice with a cell at or above -1e9, the
    cells marked 1 are exactly the greatest cells of the slice, and at
    least one cell is marked. *)
Theorem argmax_marks_maxima (input : Tensor) (dim : nat) :
  dim < length (shape input) ->
  exists mask,
    argmax input dim = Ok mask /\
    shape mask = shape input /\
    forall index,
      in_bounds index (shape input) ->
      (get mask index = 0%R \/ get mask index = 1%R) /\
      ((exists v, In v (slice input dim index) /\ (-1000000000 <= v)%R) ->
       (get mask index = 1%R <->
        is_maximum (get input index) (slice input dim index)) /\
       In 1%R (slice mask dim index)).
Proof.
  intros Hd.
  destruct (argmax_mask input Hd) as (mask & Hm & Hs & Hget).
  exists mask. split; [exact Hm|]. split; [exact Hs|].
  intros index Hb. destruct (Hget index Hb) as [H01 Hiff].
  split; [exact H01|]. intros Hv.
  pose proof (fold_max_is_maximum _ Hv) as Hmax.
  split.
  - rewrite Hiff. split.
    + intros ->. exact Hmax.
    + intros [_ Hub]. destruct Hmax as [Hin Hub'].
      pose proof (Hub _ Hin). pose proof (Hub' _ (In_slice input Hb Hd)).
      lra.
  - destruct (argmax_above_start input Hd Hb Hv) as (mask' & m & Hm' & _ & _ & H1).
    rewrite Hm in Hm'. injection Hm' as <-. exact H1.
Qed.

Lemma argmax_marks_maxima_witness :
  exists mask,
    argmax (make [1; 5; 5; 2]%R [4]) 0 = Ok mask /\
    shape mask = [4] /\
    get mask [1] = 1%R /\ get mask [2] = 1%R /\ get mask [0] <> 1%R.
Proof.
  destruct (@argmax_marks_maxima (make [1; 5; 5; 2]%R [4]) 0)
    as (mask & Hm & Hs & Hget).
  - cbn. lia.
  - exists mask. split; [exact Hm|]. split; [exact Hs|].
    assert (Hv : exists v,
               In v (slice (make [1; 5; 5; 2]%R [4]) 0 [0]) /\
               (-1000000000 <= v)%R)
      by (exists 1%R; split; [left; reflexivity | lra]).
    split; [|split].
    + destruct (Hget [1]) as (_ & H); [repeat constructor|].
      apply (H Hv). split.
      * right. left. reflexivity.
      * intros x [<-|[<-|[<-|[<-|[]]]]]; cbn; lra.
    + destruct (Hget [2]) as (_ & H); [repeat constructor|].
      apply (H Hv). split.
      * right. left. reflexivity.
      * intros x [<-|[<-|[<-|[<-|[]]]]]; cbn; lra.
    + destruct (Hget [0]) as (_ & H); [repeat constructor|].
      intros E. apply (H Hv) in E. destruct E as [_ Hub].
      assert (Hle : (5 <= 1)%R).
      { apply (Hub 5%R). right. left. reflexivity. }
      lra.
Defined.

(** The backward pass of [Max] is [argmax] times the upstream gradient,
    as its docstring says: after a forward pass on [input] and [dim],
    [Max.backward] returns what multiplying [argmax(input, dim)] by the
    upstream gradient returns, together with 0.0 for [dim], and raises
    what that raises. *)
Theorem Max_backward_is_argmax (ctx0 ctx : Context) (input out : Tensor)
    (dim : nat) (grad_output : Tensor) :
  Max_forward ctx0 input dim = Ok (ctx, out) ->
  Max_backward ctx grad_output
  = (mask <- argmax input dim ;;
     g <- TensorMethods.mul mask grad_output ;;
     Ok (g, 0%R)).
Proof.
  unfold Max_forward, argmax.
  destruct (max_reduce input dim) as [out'|e]; cbn [bind]; [|discriminate].
  intros H. injection H as <- <-.
  reflexivity.
Qed.

Lemma Max_backward_is_argmax_witness :
  exists ctx out mask g,
    Max_forward empty_context (make [1; 5; 3; 2]%R [2; 2]) 1 = Ok (ctx, out) /\
    argmax (make [1; 5; 3; 2]%R [2; 2]) 1 = Ok mask /\
    TensorMethods.mul mask (make [7; 9]%R [2; 1]) = Ok g /\
    Max_backward ctx (make [7; 9]%R [2; 1]) = Ok (g, 0%R).
Proof.
  eexists. eexists. eexists. eexists.
  split; [reflexivity|]. split; [reflexivity|]. split; [reflexivity|].
  rewrite (@Max_backward_is_argmax empty_context _
             (make [1; 5; 3; 2]%R [2; 2]) _ 1 (make [7; 9]%R [2; 1])
             eq_refl).
  reflexivity.
Defined.

Section SoftmaxLaws.

Open Scope R_scope.

Lemma fold_Rplus_scale (c : R) (f : R -> R) (l : list R) :
  forall acc,
    fold_left Rplus (map (fun v => c * f v) l) (c * acc)
    = c * fold_left Rplus (map f l) acc.
Proof.
  induction l as [|x l IH]; intros acc; cbn [map fold_left].
  - reflexivity.
  - rewrite <- IH. f_equal. ring.
Qed.

Lemma Rsum_scale (c : R) (f : R -> R) (l : list R) :
  Rsum (map (fun v => c * f v) l) = c * Rsum (map f l).
Proof.
  unfold Rsum. rewrite <- fold_Rplus_scale. f_equal. ring.
Qed.

Lemma fold_Rplus_ge (l : list R) :
  (forall x, In x l -> 0 < x) ->
  forall acc, acc <= fold_left Rplus l acc.
Proof.
  induction l as [|x l IH]; intros H acc; cbn [fold_left]; [lra|].
  assert (0 < x) by (apply H; left; reflexivity).
  pose proof (IH (fun y Hy => H y (or_intror Hy)) (acc + x)). lra.
Qed.

Lemma In_le_fold_Rplus (l : list R) (v : R) :
  (forall x, In x l -> 0 < x) -> In v l ->
  forall acc, 0 <= acc -> v <= fold_left Rplus l acc.
Proof.
  induction l as [|x l IH]; intros H Hin acc Hacc; [destruct Hin|].
  cbn [fold_left].
  assert (Hx : 0 < x) by (apply H; left; reflexivity).
  destruct Hin as [->|Hin].
  - pose proof (@fold_Rplus_ge l (fun y Hy => H y (or_intror Hy)) (acc + v)).
    lra.
  - apply IH; [intros y Hy; apply H; right; exact Hy | exact Hin | lra].
Qed.

(** In a list of positive numbers every element is at most the sum. *)
Lemma In_le_Rsum (l : list R) (v : R) :
  (forall x, In x l -> 0 < x) -> In v l -> v <= Rsum l.
Proof.
  intros H Hin. unfold Rsum. apply In_le_fold_Rplus; [assumption.. | lra].
Qed.

(** The partition sum with the maximum taken out. *)
Lemma partition_sum_unshifted (a : Tensor) (dim : nat) (index : list nat) :
  partition_sum a dim index
  = exp (- reduced_max a dim index) * Rsum (map exp (slice a dim index)).
Proof.
  unfold partition_sum. rewrite <- Rsum_scale. f_equal.
  apply map_ext. intros v.
  unfold Rminus. rewrite exp_plus. ring.
Qed.

Lemma exp_sum_pos (a : Tensor) (dim : nat) (index : list nat) :
  in_bounds index (shape a) -> (dim < length (shape a))%nat ->
  0 < Rsum (map exp (slice a dim index)).
Proof.
  intros Hb Hd. apply Rsum_pos.
  - pose proof (In_slice a Hb Hd) as Hin.
    intros E. apply map_eq_nil in E. rewrite E in Hin. exact Hin.
  - intros y Hy. apply in_map_iff in Hy. destruct Hy as (v & <- & _).
    apply exp_pos.
Qed.

(** The cell of [softmax], without the shift by the maximum. *)
Lemma softmax_cell (a : Tensor) (dim : nat) (index : list nat) :
  in_bounds index (shape a) -> (dim < length (shape a))%nat ->
  exp (get a index - reduced_max a dim index) / partition_sum a dim index
  = exp (get a index) / Rsum (map exp (slice a dim index)).
Proof.
  intros Hb Hd. rewrite partition_sum_unshifted.
  pose proof (exp_sum_pos a Hb Hd) as Hpos.
  pose proof (exp_pos (- reduced_max a dim index)) as Hm.
  unfold Rminus. rewrite exp_plus. field. lra.
Qed.

(** The cell of [logsoftmax], without the shift by the maximum. *)
Lemma logsoftmax_cell (a : Tensor) (dim : nat) (index : list nat) :
  in_bounds index (shape a) -> (dim < length (shape a))%nat ->
  get a index - (ln (partition_sum a dim index) + reduced_max a dim index)
  = get a index - ln (Rsum (map exp (slice a dim index))).
Proof.
  intros Hb Hd. rewrite partition_sum_unshifted.
  pose proof (exp_sum_pos a Hb Hd) as Hpos.
  rewrite ln_mult by (try apply exp_pos; exact Hpos).
  rewrite ln_exp. ring.
Qed.

Lemma partition_sum_set_at (a : Tensor) (dim : nat) (index : list nat)
    (s : nat) :
  partition_sum a dim (set_at index dim s) = partition_sum a dim index.
Proof.
  unfold partition_sum. rewrite reduced_max_set_at, slice_set_at.
  reflexivity.
Qed.

Lemma in_bounds_along (sh index : list nat) (dim s : nat) :
  in_bounds index sh -> (s < nth dim sh 0)%nat ->
  in_bounds (set_at index dim s) sh.
Proof.
  intros Hb Hs. rewrite <- (set_at_set_at index dim 0 s).
  apply in_bounds_slice; [apply in_bounds_reduced, Hb | exact Hs].
Qed.

(** The slice of the result of [softmax], from the slice of the input. *)
Lemma slice_softmax (a : Tensor) (dim : nat) (index : list nat) :
  in_bounds index (shape a) -> (dim < length (shape a))%nat ->
  slice (tabulate (shape a)
           (fun index0 =>
              exp (get a index0 - reduced_max a dim index0)
              / partition_sum a dim index0))
        dim index
  = map (fun v => / partition_sum a dim index
                  * exp (v - reduced_max a dim index))
        (slice a dim index).
Proof.
  intros Hb Hd. unfold slice. rewrite shape_tabulate, map_map.
  apply map_ext_in. intros s Hs. apply in_seq in Hs.
  rewrite get_tabulate by (apply in_bounds_along; [exact Hb | lia]).
  rewrite reduced_max_set_at, partition_sum_set_at.
  unfold Rdiv. ring.
Qed.

(** The cells of [softmax] are positive, and those of a slice sum to 1. *)
Lemma softmax_slice_sum (a : Tensor) (dim : nat) (index : list nat) :
  in_bounds index (shape a) -> (dim < length (shape a))%nat ->
  let sm := tabulate (shape a)
              (fun index0 =>
                 exp (get a index0 - reduced_max a dim index0)
                 / partition_sum a dim index0) in
  Rsum (slice sm dim index) = 1 /\
  (forall v, In v (slice sm dim index) -> 0 < v) /\
  0 < get sm index <= 1.
Proof.
  intros Hb Hd sm.
  pose proof (partition_sum_pos a Hb Hd) as Hpos.
  assert (Hsum : Rsum (slice sm dim index) = 1).
  { unfold sm. rewrite slice_softmax by assumption.
    rewrite (Rsum_scale (/ partition_sum a dim index)
               (fun v => exp (v - reduced_max a dim index))).
    fold (partition_sum a dim index). field. lra. }
  assert (Hall : forall v, In v (slice sm dim index) -> 0 < v).
  { intros v Hv. unfold sm in Hv. rewrite slice_softmax in Hv by assumption.
    apply in_map_iff in Hv. destruct Hv as (w & <- & _).
    apply Rmult_lt_0_compat; [apply Rinv_0_lt_compat, Hpos | apply exp_pos]. }
  assert (Hin : In (get sm index) (slice sm dim index))
    by (apply In_slice; assumption).
  split; [exact Hsum|]. split; [exact Hall|].
  split; [apply Hall, Hin|].
  rewrite <- Hsum. apply In_le_Rsum; assumption.
Qed.

End SoftmaxLaws.

(** [softmax] returns a distribution along the axis: for a valid axis the
    result has the shape of the input, every cell lies in (0, 1], and the
    cells of every slice along the axis sum to 1; every cell of
    [logsoftmax] is at most 0. *)
Theorem softmax_sums_to_one (x : Tensor) (dim : nat) :
  dim < length (shape x) ->
  exists sm ls,
    softmax x dim = Ok sm /\
    logsoftmax x dim = Ok ls /\
    shape sm = shape x /\
    shape ls = shape x /\
    forall index,
      in_bounds index (shape x) ->
      Rsum (slice sm dim index) = 1%R /\
      (0 < get sm index <= 1)%R /\
      (get ls index <= 0)%R.
Proof.
  intros Hd. eexists. eexists.
  split; [apply softmax_ok, Hd|]. split; [apply logsoftmax_ok, Hd|].
  split; [reflexivity|]. split; [reflexivity|].
  intros index Hb.
  destruct (softmax_slice_sum x Hb Hd) as (Hsum & _ & Hcell).
  split; [exact Hsum|]. split; [exact Hcell|].
  rewrite get_tabulate in Hcell |- * by exact Hb.
  pose proof (partition_sum_pos x Hb Hd) as Hpos.
  set (m := reduced_max x dim index) in *.
  set (P := partition_sum x dim index) in *.
  destruct (Rle_or_lt (get x index - (ln P + m)) 0) as [Hle|Hgt];
    [exact Hle|].
  apply exp_increasing in Hgt. rewrite exp_0 in Hgt.
  replace (get x index - (ln P + m))%R
    with ((get x index - m) + - ln P)%R in Hgt by ring.
  rewrite exp_plus, exp_Ropp, exp_ln in Hgt by exact Hpos.
  unfold Rdiv in Hcell. lra.
Qed.

Lemma softmax_sums_to_one_witness :
  exists sm,
    softmax (make [1; 5; 3; 2]%R [2; 2]) 1 = Ok sm /\
    Rsum (slice sm 1 [0; 0]) = 1%R /\
    (0 < get sm [0; 1]%nat <= 1)%R.
Proof.
  destruct (@softmax_sums_to_one (make [1; 5; 3; 2]%R [2; 2]) 1)
    as (sm & ls & Hsm & _ & _ & _ & Hcells).
  - cbn. lia.
  - exists sm. split; [exact Hsm|]. split.
    + apply (Hcells [0; 0]). repeat constructor.
    + apply (Hcells [0; 1]). repeat constructor.
Defined.

(** [softmax] and [logsoftmax] compute the formulas of their docstrings:
    for a valid axis, the cell of [softmax] at an index is
    [exp x_i / sum_j exp x_j] and the cell of [logsoftmax] is
    [x_i - ln (sum_j exp x_j)], the sums ranging over the slice through
    the index; subtracting the maximum first changes nothing. *)
Theorem softmax_docstring_formula (x : Tensor) (dim : nat) :
  dim < length (shape x) ->
  exists sm ls,
    softmax x dim = Ok sm /\
    logsoftmax x dim = Ok ls /\
    forall index,
      in_bounds index (shape x) ->
      get sm index
      = (exp (get x index) / Rsum (map exp (slice x dim index)))%R /\
      get ls index
      = (get x index - ln (Rsum (map exp (slice x dim index))))%R.
Proof.
  intros Hd. eexists. eexists.
  split; [apply softmax_ok, Hd|]. split; [apply logsoftmax_ok, Hd|].
  intros index Hb. rewrite !get_tabulate by exact Hb.
  split; [apply softmax_cell | apply logsoftmax_cell]; assumption.
Qed.

Lemma softmax_docstring_formula_witness :
  exists sm ls,
    softmax (make [1; 5; 3; 2]%R [2; 2]) 1 = Ok sm /\
    logsoftmax (make [1; 5; 3; 2]%R [2; 2]) 1 = Ok ls /\
    get sm [1; 0] = (exp 3 / Rsum [exp 3; exp 2])%R /\
    get ls [1; 0] = (3 - ln (Rsum [exp 3; exp 2]))%R.
Proof.
  destruct (@softmax_docstring_formula (make [1; 5; 3; 2]%R [2; 2]) 1)
    as (sm & ls & Hsm & Hls & Hcells).
  - cbn. lia.
  - exists sm, ls. split; [exact Hsm|]. split; [exact Hls|].
    apply (Hcells [1; 0]). repeat constructor.
Defined.

Section ShiftInvariance.

Open Scope R_scope.

Variables (x y : Tensor) (c : R).
Hypothesis same_shape : shape y = shape x.
Hypothesis shifted :
  forall index, in_bounds index (shape x) -> get y index = get x index + c.

Lemma slice_shifted (dim : nat) (index : list nat) :
  in_bounds index (shape x) ->
  Rsum (map exp (slice y dim index))
  = exp c * Rsum (map exp (slice x dim index)).
Proof.
  intros Hb. rewrite <- Rsum_scale. f_equal.
  unfold slice. rewrite same_shape, !map_map.
  apply map_ext_in. intros s Hs. apply in_seq in Hs.
  rewrite shifted by (apply in_bounds_along; [exact Hb | lia]).
  rewrite exp_plus. ring.
Qed.

Lemma softmax_shifted (dim : nat) : softmax y dim = softmax x dim.
Proof.
  destruct (Nat.lt_ge_cases dim (length (shape x))) as [Hd|Hd].
  - rewrite !softmax_ok by (rewrite ?same_shape; exact Hd).
    f_equal. rewrite same_shape. apply tabulate_ext. intros index Hb.
    rewrite !softmax_cell by (rewrite ?same_shape; assumption).
    rewrite slice_shifted, shifted by exact Hb.
    pose proof (exp_sum_pos x Hb Hd). pose proof (exp_pos c).
    rewrite exp_plus. field. lra.
  - unfold softmax, Max_apply, Max_forward, max_reduce.
    rewrite !reduce_out_of_range by (rewrite ?same_shape; exact Hd).
    reflexivity.
Qed.

Lemma logsoftmax_shifted (dim : nat) :
  logsoftmax y dim = logsoftmax x dim.
Proof.
  destruct (Nat.lt_ge_cases dim (length (shape x))) as [Hd|Hd].
  - rewrite !logsoftmax_ok by (rewrite ?same_shape; exact Hd).
    f_equal. rewrite same_shape. apply tabulate_ext. intros index Hb.
    rewrite !logsoftmax_cell by (rewrite ?same_shape; assumption).
    rewrite slice_shifted, shifted by exact Hb.
    pose proof (exp_sum_pos x Hb Hd).
    rewrite ln_mult by (try apply exp_pos; assumption).
    rewrite ln_exp. ring.
  - unfold logsoftmax, Max_apply, Max_forward, max_reduce.
    rewrite !reduce_out_of_range by (rewrite ?same_shape; exact Hd).
    reflexivity.
Qed.

End ShiftInvariance.

(** [softmax] and [logsoftmax] do not see a shift of the input: two
    tensors of the same shape whose cells differ by one constant [c]
    everywhere give the same [softmax] and the same [logsoftmax], along
    every axis. *)
Theorem softmax_shift_invariant (x y : Tensor) (c : R) (dim : nat) :
  shape y = shape x ->
  (forall index,
     in_bounds index (shape x) -> get y index = (get x index + c)%R) ->
  softmax y dim = softmax x dim /\
  logsoftmax y dim = logsoftmax x dim.
Proof.
  intros Hs Hc. split.
  - apply softmax_shifted with (c := c); assumption.
  - apply logsoftmax_shifted with (c := c); assumption.
Qed.

Lemma softmax_shift_invariant_witness :
  softmax (make [11; 15]%R [2]) 0 = softmax (make [1; 5]%R [2]) 0 /\
  logsoftmax (make [11; 15]%R [2]) 0 = logsoftmax (make [1; 5]%R [2]) 0.
Proof.
  apply (@softmax_shift_invariant
           (make [1; 5]%R [2]) (make [11; 15]%R [2]) 10%R 0).
  - reflexivity.
  - intros index Hb.
    inversion Hb as [|i ? l ? Hi T]; subst. inversion T; subst.
    destruct i as [|[|i]]; [cbn; lra | cbn; lra | cbn in Hi; lia].
Defined.

Section DropoutMask.

(** What [dropout] returns on a tensor with at least one axis. *)
Lemma dropout_ok (input : Tensor) (rate : R) (rng : nat -> R) :
  shape input <> [] ->
  dropout input rate false rng =
  Ok (tabulate (shape input)
        (fun index =>
           (get input index
            * Operators.lt rate
                (rng (index_to_position index
                        (strides_from_shape (shape input)))))%R)).
Proof.
  intros Hne. unfold dropout, TensorMethods.lt.
  rewrite zip_scalar_l by exact Hne. cbn [bind].
  unfold TensorMethods.mul. rewrite zip_same by reflexivity.
  f_equal. apply tabulate_ext. intros index Hb.
  change (shape (TensorMethods.rand (shape input) rng)) with (shape input).
  rewrite get_tabulate by exact Hb.
  rewrite get_rand by exact Hb. reflexivity.
Qed.

(** In row-major order, cell [k] of the result is cell [k] of the input
    times the mask value of sample [k]. *)
Lemma dropout_elements (input : Tensor) (rate : R) (rng : nat -> R) :
  exists out,
    dropout input rate false rng = Ok out /\
    (shape input <> [] -> shape out = shape input) /\
    length (elements out) = length (elements input) /\
    forall k,
      k < size_of (shape input) ->
      nth k (elements out) 0%R
      = (nth k (elements input) 0 * Operators.lt rate (rng k))%R.
Proof.
  destruct (list_eq_dec Nat.eq_dec (shape input) []) as [Hnil|Hne].
  - destruct input as [st sh strd]. cbn [shape] in Hnil. subst sh.
    eexists. split; [reflexivity|].
    split; [intros H; exfalso; apply H; reflexivity|].
    split; [reflexivity|].
    intros k Hk. cbn in Hk. assert (k = 0) by lia. subst k. reflexivity.
  - eexists. split; [apply dropout_ok, Hne|].
    split; [reflexivity|].
    split; [rewrite !length_elements; reflexivity|].
    intros k Hk.
    rewrite nth_elements by (rewrite shape_tabulate; exact Hk).
    rewrite shape_tabulate.
    rewrite get_tabulate by (apply to_index_in_bounds, Hk).
    rewrite position_to_index by exact Hk.
    rewrite nth_elements by exact Hk. reflexivity.
Qed.

End DropoutMask.

(** [dropout] keeps or zeroes, and never rescales: with [ignore=False] it
    returns a tensor with as many cells as the input (and the shape of
    the input, when that has an axis); in row-major order, cell [k] is
    cell [k] of the input where the rate is strictly below noise sample
    [k], and 0 elsewhere. *)
Theorem dropout_keeps_or_zeroes (input : Tensor) (rate : R)
    (rng : nat -> R) :
  exists out,
    dropout input rate false rng = Ok out /\
    (shape input <> [] -> shape out = shape input) /\
    length (elements out) = length (elements input) /\
    forall k,
      k < size_of (shape input) ->
      ((rate < rng k)%R ->
       nth k (elements out) 0%R = nth k (elements input) 0%R) /\
      (~ (rate < rng k)%R -> nth k (elements out) 0%R = 0%R).
Proof.
  destruct (dropout_elements input rate rng) as (out & Ho & Hs & Hl & Hk).
  exists out. split; [exact Ho|]. split; [exact Hs|]. split; [exact Hl|].
  intros k Hlt. rewrite (Hk k Hlt). unfold Operators.lt.
  destruct (Rlt_dec rate (rng k)) as [H|H].
  - split; [intros _; ring | intros Hn; contradiction].
  - split; [intros Hy; contradiction | intros _; ring].
Qed.

Lemma dropout_keeps_or_zeroes_witness :
  exists out,
    dropout (make [4; 5]%R [2]) (1 / 2) false (fun k => INR k) = Ok out /\
    nth 0 (elements out) 0%R = 0%R /\
    nth 1 (elements out) 0%R = 5%R.
Proof.
  destruct (dropout_keeps_or_zeroes (make [4; 5]%R [2]) (1 / 2)
              (fun k => INR k)) as (out & Ho & _ & _ & Hk).
  exists out. split; [exact Ho|]. split.
  - destruct (Hk 0) as [_ H0]; [cbn; lia|].
    apply H0. cbn. lra.
  - destruct (Hk 1) as [H1 _]; [cbn; lia|].
    rewrite H1; [reflexivity|]. cbn. lra.
Defined.

(** The two ends of the rate, for uniform noise (samples in [0, 1)): a
    rate of 1 or more zeroes every cell, a rate below 0 keeps every
    cell. *)
Theorem dropout_extreme_rates (input : Tensor) (rate : R)
    (rng : nat -> R) :
  TensorMethods.uniform_noise rng ->
  exists out,
    dropout input rate false rng = Ok out /\
    length (elements out) = length (elements input) /\
    ((1 <= rate)%R -> forall v, In v (elements out) -> v = 0%R) /\
    ((rate < 0)%R -> elements out = elements input).
Proof.
  intros Hu.
  destruct (dropout_elements input rate rng) as (out & Ho & _ & Hl & Hk).
  exists out. split; [exact Ho|]. split; [exact Hl|].
  rewrite !length_elements in Hl.
  split.
  - intros Hrate v Hv. apply (In_nth _ _ 0%R) in Hv.
    destruct Hv as (k & Hlt & <-).
    rewrite length_elements, Hl in Hlt.
    rewrite (Hk k Hlt). unfold Operators.lt.
    destruct (Rlt_dec rate (rng k)) as [H|_]; [|ring].
    destruct (Hu k). lra.
  - intros Hrate. apply (nth_ext _ _ 0%R 0%R).
    + rewrite !length_elements. exact Hl.
    + intros k Hlt. rewrite length_elements, Hl in Hlt.
      rewrite (Hk k Hlt). unfold Operators.lt.
      destruct (Rlt_dec rate (rng k)) as [_|H]; [ring|].
      destruct (Hu k). lra.
Qed.

Lemma dropout_extreme_rates_witness :
  (exists out,
     dropout (make [4; 5]%R [2]) 1 false (fun _ => (1 / 2)%R) = Ok out /\
     forall v, In v (elements out) -> v = 0%R) /\
  (exists out,
     dropout (make [4; 5]%R [2]) (-1) false (fun _ => (1 / 2)%R) = Ok out /\
     elements out = [4; 5]%R).
Proof.
  assert (Hu : TensorMethods.uniform_noise (fun _ => (1 / 2)%R))
    by (intros k; lra).
  split.
  - destruct (dropout_extreme_rates (make [4; 5]%R [2]) 1 Hu)
      as (out & Ho & _ & H1 & _).
    exists out. split; [exact Ho|]. apply H1. lra.
  - destruct (dropout_extreme_rates (make [4; 5]%R [2]) (-1) Hu)
      as (out & Ho & _ & _ & H2).
    exists out. split; [exact Ho|]. rewrite H2 by lra. reflexivity.
Defined.

Section Gelu.

Open Scope R_scope.

(** The hyperbolic tangent lies strictly between -1 and 1. *)
Lemma tanh_bounds (z : R) : -1 < tanh z < 1.
Proof.
  unfold tanh, sinh, cosh.
  pose proof (exp_pos z) as Ha. pose proof (exp_pos (- z)) as Hb.
  set (a := exp z) in *. set (b := exp (- z)) in *.
  assert (Hc : 0 < (a + b) / 2) by lra.
  split.
  - apply (Rmult_lt_reg_r ((a + b) / 2)); [exact Hc|].
    unfold Rdiv at 2. rewrite Rmult_assoc, Rinv_l by lra. lra.
  - apply (Rmult_lt_reg_r ((a + b) / 2)); [exact Hc|].
    unfold Rdiv at 1. rewrite Rmult_assoc, Rinv_l by lra. lra.
Qed.

(** The scalar function that [GELU] applies to every cell. *)
Lemma gelu_between (v t : R) :
  -1 < t < 1 ->
  (0 <= v -> 0 <= v * (5 / 10) * (t + 1) <= v) /\
  (v <= 0 -> v <= v * (5 / 10) * (t + 1) <= 0).
Proof. intros Ht. split; intros Hv; split; nra. Qed.

Lemma GELU_ok (input : Tensor) :
  shape input <> [] ->
  GELU input =
  Ok (tabulate (shape input)
        (fun index =>
           let v := get input index in
           v * (5 / 10)
           * (tanh ((v + v ^ 3 * (44715 / 1000000)) * sqrt (2 / PI)) + 1))).
Proof.
  intros Hne. unfold GELU.
  unfold TensorMethods.mul at 1. rewrite zip_scalar_r by exact Hne.
  cbn [bind].
  unfold TensorMethods.mul at 1, TensorMethods.pow, FastOps.map.
  rewrite zip_scalar_r by (rewrite shape_tabulate; exact Hne).
  cbn [bind]. rewrite shape_tabulate.
  unfold TensorMethods.add at 1. rewrite zip_same by reflexivity.
  cbn [bind].
  unfold TensorMethods.mul at 1. rewrite zip_scalar_r by exact Hne.
  cbn [bind]. rewrite shape_tabulate.
  unfold TensorMethods.tanh, FastOps.map. rewrite shape_tabulate.
  unfold TensorMethods.add. rewrite zip_scalar_r by exact Hne.
  cbn [bind]. rewrite shape_tabulate.
  unfold TensorMethods.mul. rewrite zip_same by reflexivity.
  rewrite shape_tabulate. f_equal.
  apply tabulate_ext. intros index Hb. cbv zeta.
  repeat rewrite get_tabulate by exact Hb. reflexivity.
Qed.

End Gelu.

(** [GELU] works cell by cell and stays between 0 and its input: on a
    tensor with at least one axis it returns a tensor of the same shape
    whose cell is [0.5 * v * (1 + tanh (sqrt (2 / pi) * (v + 0.044715 *
    v^3)))] for the cell [v] of the input, a value in [0, v] when [v] is
    not negative and in [v, 0] when it is not positive (so 0 at 0). *)
Theorem GELU_between_zero_and_input (input : Tensor) :
  shape input <> [] ->
  exists out,
    GELU input = Ok out /\
    shape out = shape input /\
    forall index,
      in_bounds index (shape input) ->
      let v := get input index in
      get out index
      = (5 / 10 * v
         * (1 + tanh (sqrt (2 / PI) * (v + 44715 / 1000000 * v ^ 3))))%R /\
      ((0 <= v)%R -> (0 <= get out index <= v)%R) /\
      ((v <= 0)%R -> (v <= get out index <= 0)%R).
Proof.
  intros Hne. eexists. split; [apply GELU_ok, Hne|].
  split; [reflexivity|].
  intros index Hb v. rewrite get_tabulate by exact Hb. fold v.
  split.
  - cbv zeta. fold v.
    replace (sqrt (2 / PI) * (v + 44715 / 1000000 * v ^ 3))%R
      with ((v + v ^ 3 * (44715 / 1000000)) * sqrt (2 / PI))%R by ring.
    ring.
  - cbv zeta. fold v. apply gelu_between, tanh_bounds.
Qed.

Lemma GELU_between_zero_and_input_witness :
  exists out,
    GELU (make [0; 2; -3]%R [3]) = Ok out /\
    shape out = [3] /\
    get out [0] = 0%R /\
    (0 <= get out [1]%nat <= 2)%R /\
    (-3 <= get out [2]%nat <= 0)%R.
Proof.
  destruct (@GELU_between_zero_and_input (make [0; 2; -3]%R [3]))
    as (out & Ho & Hs & Hcells).
  - discriminate.
  - exists out. split; [exact Ho|]. split; [exact Hs|].
    split; [|split].
    + destruct (Hcells [0]) as (_ & H1 & _); [repeat constructor|].
      cbv zeta in H1.
      change (get (make [0; 2; -3]%R [3]) [0]) with 0%R in H1.
      pose proof (H1 (Rle_refl 0)). lra.
    + destruct (Hcells [1]) as (_ & H1 & _); [repeat constructor|].
      apply H1. cbn. lra.
    + destruct (Hcells [2]) as (_ & _ & H2); [repeat constructor|].
      apply H2. cbn. lra.
Defined.

Section OneHot.

Lemma astype_int_INR (k : nat) : Numpy.astype_int (INR k) = Z.of_nat k.
Proof.
  unfold Numpy.astype_int.
  destruct (Rle_dec 0 (INR k)) as [_|n].
  - apply Int_part_INR.
  - exfalso. apply n, pos_INR.
Qed.

Lemma row_index_in_range (n k : nat) :
  k < n -> Numpy.row_index n (Z.of_nat k) = Ok k.
Proof.
  intros Hk. unfold Numpy.row_index.
  assert (H1 : (0 <=? Z.of_nat k)%Z = true) by (apply Z.leb_le; lia).
  assert (H2 : (Z.of_nat k <? Z.of_nat n)%Z = true) by (apply Z.ltb_lt; lia).
  rewrite H1, H2. cbn [andb]. rewrite Nat2Z.id. reflexivity.
Qed.

Lemma row_index_too_large (n k : nat) :
  n <= k -> Numpy.row_index n (Z.of_nat k) = Raise IndexError.
Proof.
  intros Hk. unfold Numpy.row_index.
  assert (H2 : (Z.of_nat k <? Z.of_nat n)%Z = false)
    by (apply Z.ltb_ge; lia).
  assert (H3 : (Z.of_nat k <? 0)%Z = false) by (apply Z.ltb_ge; lia).
  rewrite H2, H3, !andb_false_r. reflexivity.
Qed.

Lemma row_index_raises (n : nat) (k : Z) (e : exn) :
  Numpy.row_index n k = Raise e -> e = IndexError.
Proof.
  unfold Numpy.row_index.
  destruct (_ && _)%bool; [discriminate|].
  destruct (_ && _)%bool; [discriminate|].
  intros H. injection H as <-. reflexivity.
Qed.

Lemma mapM_ok (A B : Type) (f : A -> result B) (g : A -> B) (l : list A) :
  (forall x, In x l -> f x = Ok (g x)) -> mapM f l = Ok (map g l).
Proof.
  induction l as [|x l IH]; intros H; cbn [mapM map]; [reflexivity|].
  rewrite (H x) by (left; reflexivity). cbn [bind].
  rewrite IH by (intros y Hy; apply H; right; exact Hy). reflexivity.
Qed.

(** One index out of range makes the whole lookup raise. *)
Lemma mapM_row_index_raises (n : nat) (l : list Z) (k : Z) :
  In k l -> Numpy.row_index n k = Raise IndexError ->
  mapM (Numpy.row_index n) l = Raise IndexError.
Proof.
  induction l as [|x l IH]; intros Hin Hk; [destruct Hin|].
  cbn [mapM]. destruct (Numpy.row_index n x) as [r|e] eqn:E.
  - cbn [bind]. destruct Hin as [->|Hin]; [congruence|].
    rewrite IH by assumption. reflexivity.
  - cbn [bind]. apply row_index_raises in E. subst e. reflexivity.
Qed.

Lemma size_of_app (sh : list nat) (n : nat) :
  size_of (sh ++ [n]) = size_of sh * n.
Proof.
  induction sh as [|s sh IH]; cbn [app size_of fold_right].
  - lia.
  - fold (size_of (sh ++ [n])). fold (size_of sh). rewrite IH. ring.
Qed.

(** The position of an index extended by one component, under the shape
    extended by one axis. *)
Lemma position_app (sh index : list nat) (n j : nat) :
  in_bounds index sh ->
  index_to_position (index ++ [j]) (strides_from_shape (sh ++ [n]))
  = index_to_position index (strides_from_shape sh) * n + j.
Proof.
  induction 1 as [|i s index' sh' Hi Hb IH].
  - cbn. lia.
  - cbn [app strides_from_shape index_to_position].
    rewrite IH, size_of_app. ring.
Qed.

Lemma nth_flat_map_uniform (A : Type) (f : nat -> list A) (n : nat)
    (l : list nat) (d : A) :
  (forall x, length (f x) = n) ->
  forall k j,
    k < length l -> j < n ->
    nth (k * n + j) (flat_map f l) d = nth j (f (nth k l 0)) d.
Proof.
  intros Hlen. induction l as [|x l IH]; intros k j Hk Hj.
  - cbn in Hk. lia.
  - cbn [flat_map]. destruct k as [|k].
    + cbn [Nat.mul Nat.add nth]. rewrite app_nth1 by (rewrite Hlen; exact Hj).
      reflexivity.
    + rewrite app_nth2 by (rewrite Hlen; lia).
      rewrite Hlen. cbn [nth length] in *.
      replace (S k * n + j - n) with (k * n + j) by lia.
      apply IH; lia.
Qed.

Lemma nth_eye_row (n r j : nat) :
  j < n -> nth j (Numpy.eye_row n r) 0%R = if j =? r then 1%R else 0%R.
Proof.
  intros Hj. unfold Numpy.eye_row.
  rewrite nth_indep with (d' := (fun j => if j =? r then 1%R else 0%R) 0)
    by (rewrite length_map, length_seq; exact Hj).
  rewrite (map_nth (fun j => if j =? r then 1%R else 0%R) (seq 0 n) 0 j).
  rewrite seq_nth by exact Hj. reflexivity.
Qed.

Lemma length_eye_row (n r : nat) : length (Numpy.eye_row n r) = n.
Proof. unfold Numpy.eye_row. rewrite length_map, length_seq. reflexivity. Qed.

End OneHot.

(** [one_hot] on class labels: when every cell of the input is a natural
    number below [num_classes], the result has the shape of the input
    extended by one axis of length [num_classes], and the row at an index
    whose cell is [k] is 1 at position [k] and 0 at every other
    position. *)
Theorem one_hot_rows (input : Tensor) (num_classes : nat) :
  (forall index,
     in_bounds index (shape input) ->
     exists k, k < num_classes /\ get input index = INR k) ->
  exists out,
    one_hot input num_classes = Ok out /\
    shape out = shape input ++ [num_classes] /\
    forall index k j,
      in_bounds index (shape input) ->
      get input index = INR k ->
      j < num_classes ->
      get out (index ++ [j]) = if j =? k then 1%R else 0%R.
Proof.
  intros Hlabels.
  set (class := fun v => Z.to_nat (Numpy.astype_int v)).
  assert (Hrows : mapM (Numpy.row_index num_classes)
                    (map Numpy.astype_int (elements input))
                  = Ok (map class (elements input))).
  { rewrite <- (map_map Numpy.astype_int Z.to_nat).
    apply mapM_ok. intros z Hz. apply in_map_iff in Hz.
    destruct Hz as (v & <- & Hv). apply In_elements in Hv.
    destruct Hv as (index & Hb & <-).
    destruct (Hlabels index Hb) as (k & Hk & ->).
    rewrite astype_int_INR, Nat2Z.id. apply row_index_in_range, Hk. }
  unfold one_hot, TensorMethods.to_numpy, Numpy.eye_take. cbn [fst snd].
  rewrite Hrows. cbn [bind].
  eexists. split; [reflexivity|]. split; [reflexivity|].
  intros index k j Hb Hcell Hj.
  unfold TensorMethods.tensor_from_numpy, get.
  cbn [fst snd make storage strides].
  rewrite position_app by exact Hb.
  pose proof (position_lt Hb) as Hlt.
  rewrite nth_flat_map_uniform;
    [| apply length_eye_row
     | rewrite length_map, length_elements; exact Hlt
     | exact Hj].
  rewrite nth_eye_row by exact Hj.
  replace (nth (index_to_position index (strides_from_shape (shape input)))
             (map class (elements input)) 0)
    with k; [reflexivity|].
  rewrite nth_indep with (d' := class 0%R)
    by (rewrite length_map, length_elements; exact Hlt).
  rewrite (map_nth class (elements input) 0%R).
  rewrite nth_elements by exact Hlt.
  rewrite to_index_position by exact Hb.
  unfold class. rewrite Hcell, astype_int_INR, Nat2Z.id. reflexivity.
Qed.

Lemma one_hot_rows_witness :
  exists out,
    one_hot (make [INR 2; INR 0] [2]) 3 = Ok out /\
    shape out = [2; 3] /\
    get out [0; 2] = 1%R /\ get out [0; 1] = 0%R /\ get out [1; 0] = 1%R.
Proof.
  destruct (@one_hot_rows (make [INR 2; INR 0] [2]) 3)
    as (out & Ho & Hs & Hrow).
  - intros index Hb.
    inversion Hb as [|i ? l ? Hi T]; subst. inversion T; subst.
    destruct i as [|[|i]].
    + exists 2. split; [lia | reflexivity].
    + exists 0. split; [lia | reflexivity].
    + lia.
  - exists out. split; [exact Ho|]. split; [exact Hs|].
    split; [|split].
    + apply (Hrow [0] 2 2); [repeat constructor | reflexivity | lia].
    + apply (Hrow [0] 2 1); [repeat constructor | reflexivity | lia].
    + apply (Hrow [1] 0 0); [repeat constructor | reflexivity | lia].
Defined.

(** A label at or beyond [num_classes] makes [one_hot] raise: if some
    cell of the input is a natural number [k] with [num_classes <= k],
    the lookup in the identity matrix fails with [IndexError]. *)
Theorem one_hot_label_out_of_range (input : Tensor) (num_classes : nat)
    (index : list nat) (k : nat) :
  in_bounds index (shape input) ->
  get input index = INR k ->
  num_classes <= k ->
  one_hot input num_classes = Raise IndexError.
Proof.
  intros Hb Hcell Hk.
  unfold one_hot, TensorMethods.to_numpy, Numpy.eye_take. cbn [fst snd].
  rewrite (@mapM_row_index_raises num_classes _ (Z.of_nat k)).
  - reflexivity.
  - apply in_map_iff. exists (INR k). split; [apply astype_int_INR|].
    apply In_elements. exists index. split; assumption.
  - apply row_index_too_large, Hk.
Qed.

Lemma one_hot_label_out_of_range_witness :
  one_hot (make [INR 2; INR 3] [2]) 3 = Raise IndexError.
Proof.
  apply (@one_hot_label_out_of_range (make [INR 2; INR 3] [2]) 3 [1] 3).
  - repeat constructor.
  - reflexivity.
  - lia.
Defined.

(** [softmax] keeps the order within a slice: for a valid axis and two
    indices of the same slice, a larger or equal cell of the input gets a
    larger or equal cell of the result, so equal cells get equal
    shares. *)
Theorem softmax_monotone (x : Tensor) (dim : nat) (i j : list nat) :
  dim < length (shape x) ->
  in_bounds i (shape x) ->
  in_bounds j (shape x) ->
  set_at i dim 0 = set_at j dim 0 ->
  exists sm,
    softmax x dim = Ok sm /\
    ((get x i <= get x j)%R -> (get sm i <= get sm j)%R) /\
    (get x i = get x j -> get sm i = get sm j).
Proof.
  intros Hd Hi Hj Hslice. eexists.
  split; [apply softmax_ok, Hd|].
  rewrite !get_tabulate by assumption.
  rewrite !softmax_cell by assumption.
  assert (Hs : slice x dim i = slice x dim j).
  { rewrite <- (slice_set_at x dim i 0), <- (slice_set_at x dim j 0), Hslice.
    reflexivity. }
  rewrite Hs.
  pose proof (exp_sum_pos x Hj Hd) as Hpos.
  split.
  - intros Hle. unfold Rdiv.
    apply Rmult_le_compat_r; [left; apply Rinv_0_lt_compat, Hpos|].
    destruct Hle as [Hlt|Heq];
      [left; apply exp_increasing, Hlt | rewrite Heq; right; reflexivity].
  - intros ->. reflexivity.
Qed.

Lemma softmax_monotone_witness :
  exists sm,
    softmax (make [1; 5; 3; 3]%R [2; 2]) 1 = Ok sm /\
    Rle (get sm [0; 0]) (get sm [0; 1]) /\
    get sm [1; 0] = get sm [1; 1].
Proof.
  destruct (@softmax_monotone (make [1; 5; 3; 3]%R [2; 2]) 1 [0; 0] [0; 1])
    as (sm & Hsm & Hle & _).
  - cbn. lia.
  - repeat constructor.
  - repeat constructor.
  - reflexivity.
  - destruct (@softmax_monotone (make [1; 5; 3; 3]%R [2; 2]) 1 [1; 0] [1; 1])
      as (sm' & Hsm' & _ & Heq).
    + cbn. lia.
    + repeat constructor.
    + repeat constructor.
    + reflexivity.
    + rewrite Hsm in Hsm'. injection Hsm' as <-.
      exists sm. split; [exact Hsm|]. split.
      * apply Hle. cbn. lra.
      * apply Heq. reflexivity.
Defined.
